(** * advanced-vector: RawMemory<T> and Vector<T> (vector.h)

    A shallow embedding of [src/advanced-vector/vector.h].

    Conventions of the embedding.

    - [T] is the element type.  A moved-from object stays alive and holds
      [moved_from x]; value-initialisation [T()] yields [value_init].
    - The [if constexpr] test
      [is_nothrow_move_constructible_v<T> || !is_copy_constructible_v<T>]
      is the boolean [nothrow_move_or_not_copyable]: [true] selects the
      move-based transfer, [false] the copy-based one.
    - A block of raw storage is a list of slots, one per element it has room
      for.  A slot either is uninitialised memory ([Raw]) or holds a live
      object ([Obj x]).  [RawMemory] owns its block exclusively (its copy
      operations are deleted), so the slots travel with the handle, next to
      the address [buffer_] (0 is [nullptr]) and [capacity_].
    - [size_t] values are natural numbers.  A block of [n] slots occupies
      [n * sizeof(T)] bytes of the address space, so the sizes met here are
      far from the point where [size_ * 2] would wrap.
    - An iterator is its offset from [begin()]; a [T&] into the vector is the
      index of the slot it designates.
    - Anything that may throw (operator new, T's copy constructor, T's
      constructor from arguments, T's default constructor, T's copy
      assignment) consults the fault schedule of the [world]: each such call
      consumes one entry, [true] meaning that this call throws.  An exhausted
      schedule means no further failure.  Move construction and move
      assignment are taken not to throw.
    - The [world] also keeps a ghost [log] of what the C++ object model
      forbids or loses: objects whose storage is released or overwritten
      without a destructor call ([Leak]), [destroy_at] on a slot holding no
      object, accesses past the block, reads of uninitialised slots. *)

From stdpp Require Import base option list gmap.

Set Default Proof Using "Type".

(** How a call ends: it returns, it throws, or an [assert] fails. *)
Inductive outcome (A : Type) :=
| Ret (a : A)
| Throw
| AssertFail.
Arguments Ret {A} a.
Arguments Throw {A}.
Arguments AssertFail {A}.

Section AdvancedVector.

Context {T : Type}.
Variable moved_from : T → T.
Variable value_init : T.
Variable nothrow_move_or_not_copyable : bool.

(** ** Raw storage, the world, primitive object operations *)

Inductive slot :=
| Raw
| Obj (x : T).

Inductive event :=
| Leak (x : T)
| DestroyNoObject (i : nat)
| OutOfBlock (i : nat)
| UseNoObject (i : nat).

Record world := World {
  next_addr : nat;
  faults : list bool;
  log : list event
}.

(** One fallible call: [true] when it throws. *)
Definition tick (w : world) : bool * world :=
  match faults w with
  | [] => (false, w)
  | b :: fs => (b, World (next_addr w) fs (log w))
  end.

Definition note (e : event) (w : world) : world :=
  World (next_addr w) (faults w) (e :: log w).

(** Placement new of a T holding [x] at slot [i]. *)
Definition construct_at (c : list slot) (i : nat) (x : T) (w : world)
  : list slot * world :=
  match c !! i with
  | Some Raw => (<[i := Obj x]> c, w)
  | Some (Obj y) => (<[i := Obj x]> c, note (Leak y) w)
  | None => (c, note (OutOfBlock i) w)
  end.

(** [std::destroy_at(p)] for [p] at slot [i]. *)
Definition destroy_at (c : list slot) (i : nat) (w : world)
  : list slot * world :=
  match c !! i with
  | Some (Obj _) => (<[i := Raw]> c, w)
  | Some Raw => (c, note (DestroyNoObject i) w)
  | None => (c, note (OutOfBlock i) w)
  end.

(** [new (dst) T(std::move(src[i]))], source and destination in two blocks. *)
Definition move_construct (src : list slot) (i : nat) (dst : list slot) (d : nat)
    (w : world) : list slot * list slot * world :=
  match src !! i with
  | Some (Obj x) =>
      let '(dst, w) := construct_at dst d x w in
      (<[i := Obj (moved_from x)]> src, dst, w)
  | _ => (src, dst, note (UseNoObject i) w)
  end.

(** [new (c + d) T(std::move(c[i]))] inside one block. *)
Definition move_construct_within (c : list slot) (i d : nat) (w : world)
  : list slot * world :=
  match c !! i with
  | Some (Obj x) =>
      let '(c, w) := construct_at c d x w in
      (<[i := Obj (moved_from x)]> c, w)
  | _ => (c, note (UseNoObject i) w)
  end.

(** [c[d] = std::move(c[i])] inside one block. *)
Definition move_assign_within (c : list slot) (i d : nat) (w : world)
  : list slot * world :=
  match c !! i, c !! d with
  | Some (Obj x), Some (Obj _) =>
      (<[i := Obj (moved_from x)]> (<[d := Obj x]> c), w)
  | Some (Obj _), _ => (c, note (UseNoObject d) w)
  | _, _ => (c, note (UseNoObject i) w)
  end.

(** [c[d] = std::move(temp)] for a local [temp] holding [x]. *)
Definition assign_value (c : list slot) (d : nat) (x : T) (w : world)
  : list slot * world :=
  match c !! d with
  | Some (Obj _) => (<[d := Obj x]> c, w)
  | _ => (c, note (UseNoObject d) w)
  end.

(** ** The standard algorithms the source calls *)

(** [std::destroy_n(c + first, n)]. *)
Fixpoint destroy_n (c : list slot) (first n : nat) (w : world)
  : list slot * world :=
  match n with
  | 0 => (c, w)
  | S n' =>
      let '(c, w) := destroy_at c first w in
      destroy_n c (S first) n' w
  end.

(** [std::uninitialized_copy_n(src + first, n, dst + d_first)]: copy
    construction, slot by slot.  When a copy constructor throws, the objects
    built so far by this call are destroyed and the exception goes on; the
    boolean is [false] then. *)
Fixpoint uninitialized_copy_n (src : list slot) (first n : nat)
    (dst : list slot) (d_first : nat) (w : world) : bool * list slot * world :=
  match n with
  | 0 => (true, dst, w)
  | S n' =>
      match src !! first with
      | Some (Obj x) =>
          let '(fail, w) := tick w in
          if fail then (false, dst, w)
          else
            let '(dst, w) := construct_at dst d_first x w in
            let '(ok, dst, w) :=
              uninitialized_copy_n src (S first) n' dst (S d_first) w in
            if ok then (true, dst, w)
            else let '(dst, w) := destroy_at dst d_first w in (false, dst, w)
      | _ =>
          uninitialized_copy_n src (S first) n' dst (S d_first)
            (note (UseNoObject first) w)
      end
  end.

(** [std::uninitialized_move_n(src + first, n, dst + d_first)]. *)
Fixpoint uninitialized_move_n (src : list slot) (first n : nat)
    (dst : list slot) (d_first : nat) (w : world)
  : list slot * list slot * world :=
  match n with
  | 0 => (src, dst, w)
  | S n' =>
      let '(src, dst, w) := move_construct src first dst d_first w in
      uninitialized_move_n src (S first) n' dst (S d_first) w
  end.

(** [std::uninitialized_value_construct_n(c + first, n)], with the same
    unwinding as [uninitialized_copy_n]. *)
Fixpoint uninitialized_value_construct_n (c : list slot) (first n : nat)
    (w : world) : bool * list slot * world :=
  match n with
  | 0 => (true, c, w)
  | S n' =>
      let '(fail, w) := tick w in
      if fail then (false, c, w)
      else
        let '(c, w) := construct_at c first value_init w in
        let '(ok, c, w) := uninitialized_value_construct_n c (S first) n' w in
        if ok then (true, c, w)
        else let '(c, w) := destroy_at c first w in (false, c, w)
  end.

(** [std::copy_n(src + first, n, dst + d_first)]: copy assignment, slot by
    slot; a throwing assignment leaves what was assigned so far. *)
Fixpoint copy_n (src : list slot) (first n : nat) (dst : list slot)
    (d_first : nat) (w : world) : bool * list slot * world :=
  match n with
  | 0 => (true, dst, w)
  | S n' =>
      match src !! first, dst !! d_first with
      | Some (Obj x), Some (Obj _) =>
          let '(fail, w) := tick w in
          if fail then (false, dst, w)
          else copy_n src (S first) n' (<[d_first := Obj x]> dst) (S d_first) w
      | Some (Obj _), _ =>
          copy_n src (S first) n' dst (S d_first) (note (UseNoObject d_first) w)
      | _, _ =>
          copy_n src (S first) n' dst (S d_first) (note (UseNoObject first) w)
      end
  end.

(** [std::move(c + first, c + first + n, c + d_first)]: move assignment from
    the front, inside one block. *)
Fixpoint move_range (c : list slot) (first n d_first : nat) (w : world)
  : list slot * world :=
  match n with
  | 0 => (c, w)
  | S n' =>
      let '(c, w) := move_assign_within c first d_first w in
      move_range c (S first) n' (S d_first) w
  end.

(** [std::move_backward(c + first, c + first + n, c + d_last)]: move
    assignment from the back, inside one block. *)
Fixpoint move_backward (c : list slot) (first n d_last : nat) (w : world)
  : list slot * world :=
  match n with
  | 0 => (c, w)
  | S n' =>
      let '(c, w) := move_assign_within c (first + n') (d_last - 1) w in
      move_backward c first n' (d_last - 1) w
  end.

(** ** RawMemory<T> *)

Record RawMemory := mkRawMemory {
  buffer_ : nat;
  capacity_ : nat;
  cells : list slot
}.

(** [RawMemory() = default]: [buffer_ = nullptr], [capacity_ = 0]. *)
Definition RawMemory_default : RawMemory := mkRawMemory 0 0 [].

Definition set_cells (m : RawMemory) (c : list slot) : RawMemory :=
  mkRawMemory (buffer_ m) (capacity_ m) c.

(** [Allocate(n)]: [nullptr] for [n = 0], without a request to operator new;
    otherwise a fresh address, or [None] when operator new throws. *)
Definition Allocate (n : nat) (w : world) : option nat * world :=
  if n =? 0 then (Some 0, w)
  else
    let '(fail, w) := tick w in
    if fail then (None, w)
    else (Some (S (next_addr w)), World (S (next_addr w)) (faults w) (log w)).

(** [explicit RawMemory(size_t capacity)]. *)
Definition RawMemory_new (capacity : nat) (w : world)
  : option RawMemory * world :=
  match Allocate capacity w with
  | (Some p, w) => (Some (mkRawMemory p capacity (replicate capacity Raw)), w)
  | (None, w) => (None, w)
  end.

(** [Deallocate(buf)]: operator delete runs no destructor; the objects still
    alive in the block are lost. *)
Definition Deallocate (c : list slot) (w : world) : world :=
  foldl (λ w s, match s with Obj x => note (Leak x) w | Raw => w end) w c.

(** [~RawMemory()]. *)
Definition RawMemory_dtor (m : RawMemory) (w : world) : world :=
  Deallocate (cells m) w.

(** [void Swap(RawMemory& other)]: the pair is ([*this], [other]) afterwards. *)
Definition RawMemory_Swap (this other : RawMemory) : RawMemory * RawMemory :=
  (mkRawMemory (buffer_ other) (capacity_ other) (cells other),
   mkRawMemory (buffer_ this) (capacity_ this) (cells this)).

(** [RawMemory(RawMemory&& other)]: the members start from their default
    initialisers, then [Swap(other)]. *)
Definition RawMemory_move (other : RawMemory) : RawMemory * RawMemory :=
  RawMemory_Swap RawMemory_default other.

(** [RawMemory& operator=(RawMemory&& rhs)]. *)
Definition RawMemory_move_assign (this rhs : RawMemory)
  : RawMemory * RawMemory :=
  if negb (buffer_ rhs =? buffer_ this) then RawMemory_Swap this rhs
  else (this, rhs).

(** [T* operator+(size_t offset)]: the slot offset, unless the assert fails. *)
Definition RawMemory_plus (m : RawMemory) (offset : nat) : option nat :=
  if offset <=? capacity_ m then Some offset else None.

(** [T& operator[](size_t index)]. *)
Definition RawMemory_at (m : RawMemory) (index : nat) : option nat :=
  if index <? capacity_ m then Some index else None.

(** ** Vector<T> *)

Record Vector := mkVector {
  data_ : RawMemory;
  size_ : nat
}.

Definition Size (v : Vector) : nat := size_ v.
Definition Capacity (v : Vector) : nat := capacity_ (data_ v).

(** [static void DestroyN(T* buf, size_t n)]. *)
Definition DestroyN (c : list slot) (first n : nat) (w : world)
  : list slot * world :=
  destroy_n c first n w.

(** [Vector() = default]. *)
Definition Vector_default : Vector := mkVector RawMemory_default 0.

(** [explicit Vector(size_t size)]. *)
Definition Vector_sized (size : nat) (w : world) : outcome Vector * world :=
  match RawMemory_new size w with
  | (None, w) => (Throw, w)
  | (Some data, w) =>
      let '(ok, c, w) := uninitialized_value_construct_n (cells data) 0 size w in
      if ok then (Ret (mkVector (set_cells data c) size), w)
      else (Throw, RawMemory_dtor (set_cells data c) w)
  end.

(** [Vector(const Vector& other)]. *)
Definition Vector_copy (other : Vector) (w : world) : outcome Vector * world :=
  match RawMemory_new (size_ other) w with
  | (None, w) => (Throw, w)
  | (Some data, w) =>
      let '(ok, c, w) :=
        uninitialized_copy_n (cells (data_ other)) 0 (size_ other)
          (cells data) 0 w in
      if ok then (Ret (mkVector (set_cells data c) (size_ other)), w)
      else (Throw, RawMemory_dtor (set_cells data c) w)
  end.

(** [Vector(Vector&& other)]: the pair is ([*this], [other]) afterwards. *)
Definition Vector_move (other : Vector) : Vector * Vector :=
  let '(data, other_data) :=
    RawMemory_move_assign RawMemory_default (data_ other) in
  (mkVector data (size_ other), mkVector other_data 0).

(** [~Vector()]. *)
Definition Vector_dtor (v : Vector) (w : world) : world :=
  let '(c, w) := DestroyN (cells (data_ v)) 0 (size_ v) w in
  RawMemory_dtor (set_cells (data_ v) c) w.

(** [void Swap(Vector& other)]: the pair is ([*this], [other]) afterwards. *)
Definition Swap (this other : Vector) : Vector * Vector :=
  let '(data, other_data) := RawMemory_Swap (data_ this) (data_ other) in
  (mkVector data (size_ other), mkVector other_data (size_ this)).

(** [void CopyElementsFromVector(const Vector& rhs)]. *)
Definition CopyElementsFromVector (rhs v : Vector) (w : world)
  : outcome unit * Vector * world :=
  let copy_elem := if size_ rhs <? size_ v then size_ rhs else size_ v in
  let '(ok, c, w) :=
    copy_n (cells (data_ rhs)) 0 copy_elem (cells (data_ v)) 0 w in
  if negb ok then (Throw, mkVector (set_cells (data_ v) c) (size_ v), w)
  else
    let end_ := copy_elem in
    if size_ rhs <? size_ v then
      let '(c, w) := destroy_n c end_ (size_ v - size_ rhs) w in
      (Ret tt, mkVector (set_cells (data_ v) c) (size_ rhs), w)
    else
      let '(ok, c, w) :=
        uninitialized_copy_n (cells (data_ rhs)) (size_ v)
          (size_ rhs - size_ v) c end_ w in
      if ok then (Ret tt, mkVector (set_cells (data_ v) c) (size_ rhs), w)
      else (Throw, mkVector (set_cells (data_ v) c) (size_ v), w).

(** The body of [operator=(const Vector& rhs)] behind its [this != &rhs]
    test, which compares addresses and is applied where objects have them
    ([copy_assign] below). *)
Definition Vector_copy_assign (rhs v : Vector) (w : world)
  : outcome unit * Vector * world :=
  if Capacity v <? size_ rhs then
    match Vector_copy rhs w with
    | (Ret rhs_copy, w) =>
        let '(v, rhs_copy) := Swap v rhs_copy in
        (Ret tt, v, Vector_dtor rhs_copy w)
    | (Throw, w) => (Throw, v, w)
    | (AssertFail, w) => (AssertFail, v, w)
    end
  else CopyElementsFromVector rhs v w.

(** [void Reserve(size_t new_capacity)]. *)
Definition Reserve (new_capacity : nat) (v : Vector) (w : world)
  : outcome unit * Vector * world :=
  if new_capacity <=? capacity_ (data_ v) then (Ret tt, v, w)
  else
    match RawMemory_new new_capacity w with
    | (None, w) => (Throw, v, w)
    | (Some new_data, w) =>
        let '(ok, old, new, w) :=
          if nothrow_move_or_not_copyable then
            let '(old, new, w) :=
              uninitialized_move_n (cells (data_ v)) 0 (size_ v)
                (cells new_data) 0 w in
            (true, old, new, w)
          else
            let '(ok, new, w) :=
              uninitialized_copy_n (cells (data_ v)) 0 (size_ v)
                (cells new_data) 0 w in
            (ok, cells (data_ v), new, w) in
        if ok then
          let '(data, new_data) :=
            RawMemory_Swap (set_cells (data_ v) old) (set_cells new_data new) in
          let '(c, w) := DestroyN (cells new_data) 0 (size_ v) w in
          let w := RawMemory_dtor (set_cells new_data c) w in
          (Ret tt, mkVector data (size_ v), w)
        else (Throw, v, RawMemory_dtor (set_cells new_data new) w)
    end.

(** [Emplace] and [EmplaceBack] call each other: [Emplace] hands an insertion
    at [end()] into spare capacity to [EmplaceBack], and [EmplaceBack] hands
    an insertion into a full vector to [Emplace].  Each body takes the other
    function as an argument; the knot is tied below. *)

(** The body of [iterator Emplace(const_iterator pos, Args&&... args)];
    [args] is the value the new element is constructed with. *)
Definition Emplace_body
    (EmplaceBack : T → Vector → world → outcome nat * Vector * world)
    (pos : nat) (args : T) (v : Vector) (w : world)
  : outcome nat * Vector * world :=
  if negb (pos <=? size_ v) then (AssertFail, v, w)
  else
    let index := pos in
    let dist := pos in
    if size_ v =? Capacity v then
      let new_size := if 0 <? size_ v then size_ v * 2 else 1 in
      match RawMemory_new new_size w with
      | (None, w) => (Throw, v, w)
      | (Some new_data, w) =>
          let '(fail, w) := tick w in
          if fail then (Throw, v, RawMemory_dtor new_data w)
          else
            let '(new, w) := construct_at (cells new_data) dist args w in
            let '(ok, old, new, w) :=
              if nothrow_move_or_not_copyable then
                let '(old, new, w) :=
                  uninitialized_move_n (cells (data_ v)) 0 dist new 0 w in
                let '(old, new, w) :=
                  uninitialized_move_n old dist (size_ v - dist)
                    new (dist + 1) w in
                (true, old, new, w)
              else
                let '(ok, new, w) :=
                  uninitialized_copy_n (cells (data_ v)) 0 dist new 0 w in
                if ok then
                  let '(ok, new, w) :=
                    uninitialized_copy_n (cells (data_ v)) dist
                      (size_ v - dist) new 0 w in
                  (ok, cells (data_ v), new, w)
                else (false, cells (data_ v), new, w) in
            if ok then
              let '(data, new_data) :=
                RawMemory_Swap (set_cells (data_ v) old)
                  (set_cells new_data new) in
              let '(c, w) := DestroyN (cells new_data) 0 (size_ v) w in
              let w := RawMemory_dtor (set_cells new_data c) w in
              (Ret dist, mkVector data (S (size_ v)), w)
            else (Throw, v, RawMemory_dtor (set_cells new_data new) w)
      end
    else if size_ v =? pos then EmplaceBack args v w
    else
      let '(fail, w) := tick w in
      if fail then (Throw, v, w)
      else
        let temp := args in
        match RawMemory_at (data_ v) (size_ v - 1) with
        | None => (AssertFail, v, w)
        | Some last =>
            let '(c, w) :=
              move_construct_within (cells (data_ v)) last (size_ v) w in
            let '(c, w) :=
              move_backward c index (size_ v - 1 - index) (size_ v) w in
            match RawMemory_at (data_ v) dist with
            | None => (AssertFail, mkVector (set_cells (data_ v) c) (size_ v), w)
            | Some d =>
                let '(c, w) := assign_value c d temp w in
                (Ret dist, mkVector (set_cells (data_ v) c) (S (size_ v)), w)
            end
        end.

(** The body of [T& EmplaceBack(Args&&... args)]. *)
Definition EmplaceBack_body
    (Emplace : nat → T → Vector → world → outcome nat * Vector * world)
    (args : T) (v : Vector) (w : world) : outcome nat * Vector * world :=
  if size_ v =? Capacity v then
    match Emplace (size_ v) args v w with
    | (Ret _, v, w) => (Ret (size_ v - 1), v, w)
    | r => r
    end
  else
    let '(fail, w) := tick w in
    if fail then (Throw, v, w)
    else
      let '(c, w) := construct_at (cells (data_ v)) (size_ v) args w in
      let v := mkVector (set_cells (data_ v) c) (S (size_ v)) in
      (Ret (size_ v - 1), v, w).

(** The two bodies, unfolded [depth] calls deep. *)
Fixpoint Emplace_depth (depth : nat) (pos : nat) (args : T) (v : Vector)
    (w : world) : outcome nat * Vector * world :=
  match depth with
  | 0 => (AssertFail, v, w)
  | S depth' =>
      Emplace_body (EmplaceBack_body (Emplace_depth depth')) pos args v w
  end.

(** A call chain is at most two calls long ([Emplace_unfold] and
    [EmplaceBack_unfold] below are the two functions' own equations). *)
Definition EmplaceBack (args : T) (v : Vector) (w : world)
  : outcome nat * Vector * world :=
  EmplaceBack_body (Emplace_depth 1) args v w.

Definition Emplace (pos : nat) (args : T) (v : Vector) (w : world)
  : outcome nat * Vector * world :=
  Emplace_body EmplaceBack pos args v w.

Definition discard {A} (r : outcome A * Vector * world)
  : outcome unit * Vector * world :=
  match r with
  | (Ret _, v, w) => (Ret tt, v, w)
  | (Throw, v, w) => (Throw, v, w)
  | (AssertFail, v, w) => (AssertFail, v, w)
  end.

(** [iterator Insert(const_iterator pos, const T& value)] and its [T&&]
    overload. *)
Definition Insert (pos : nat) (value : T) (v : Vector) (w : world)
  : outcome nat * Vector * world :=
  Emplace pos value v w.

(** [void PushBack(const T& value)] and its [T&&] overload. *)
Definition PushBack (value : T) (v : Vector) (w : world)
  : outcome unit * Vector * world :=
  discard (EmplaceBack value v w).

(** [void Resize(size_t new_size)]. *)
Definition Resize (new_size : nat) (v : Vector) (w : world)
  : outcome unit * Vector * world :=
  if new_size =? size_ v then (Ret tt, v, w)
  else
    let size_dif :=
      if new_size <? size_ v then size_ v - new_size else new_size - size_ v in
    if new_size <? size_ v then
      match RawMemory_plus (data_ v) new_size with
      | None => (AssertFail, v, w)
      | Some p =>
          let '(c, w) := DestroyN (cells (data_ v)) p size_dif w in
          (Ret tt, mkVector (set_cells (data_ v) c) new_size, w)
      end
    else
      match Reserve new_size v w with
      | (Ret _, v, w) =>
          match RawMemory_plus (data_ v) (size_ v) with
          | None => (AssertFail, v, w)
          | Some p =>
              let '(ok, c, w) :=
                uninitialized_value_construct_n (cells (data_ v)) p size_dif w in
              if ok then (Ret tt, mkVector (set_cells (data_ v) c) new_size, w)
              else (Throw, mkVector (set_cells (data_ v) c) (size_ v), w)
          end
      | r => r
      end.

(** [void PopBack()]. *)
Definition PopBack (v : Vector) (w : world) : outcome unit * Vector * world :=
  if 0 <? size_ v then
    let '(c, w) := destroy_at (cells (data_ v)) (size_ v - 1) w in
    (Ret tt, mkVector (set_cells (data_ v) c) (size_ v - 1), w)
  else (Ret tt, v, w).

(** [iterator Erase(const_iterator pos)]. *)
Definition Erase (pos : nat) (v : Vector) (w : world)
  : outcome nat * Vector * world :=
  if negb (pos <? size_ v) then (AssertFail, v, w)
  else
    let index := pos in
    let '(c, w) :=
      move_range (cells (data_ v)) (index + 1) (size_ v - (index + 1))
        index w in
    let '(c, w) := destroy_at c (size_ v) w in
    (Ret index, mkVector (set_cells (data_ v) c) (size_ v - 1), w).

(** What iterating from [begin()] to [end()] walks over: the first [size_]
    slots. *)
Definition contents (v : Vector) : list slot :=
  take (size_ v) (cells (data_ v)).

(** [T& operator[](size_t index)] of the vector: [assert(index < size_)], then
    [data_[index]] with RawMemory's own assert. *)
Definition Vector_at (index : nat) (v : Vector) : outcome nat :=
  if index <? size_ v then
    match RawMemory_at (data_ v) index with
    | Some i => Ret i
    | None => AssertFail
    end
  else AssertFail.

(** ** Programs over several vectors

    Objects live at addresses; [this != &rhs] compares them.  A program is a
    list of operations on the objects of a [state]. *)

Record state := State {
  objs : gmap nat Vector;
  env : world
}.

(** A member function applied to the object at [this].  A step on an object
    that does not exist is no step of any program: it ends like a failed
    assert. *)
Definition on_object {A} (this : nat)
    (f : Vector → world → outcome A * Vector * world) (σ : state)
  : outcome A * state :=
  match objs σ !! this with
  | Some v =>
      let '(o, v, w) := f v (env σ) in
      (o, State (<[this := v]> (objs σ)) w)
  | None => (AssertFail, σ)
  end.

(** A constructor run at the free address [this]. *)
Definition construct (this : nat) (f : world → outcome Vector * world)
    (σ : state) : outcome unit * state :=
  match objs σ !! this with
  | Some _ => (AssertFail, σ)
  | None =>
      match f (env σ) with
      | (Ret v, w) => (Ret tt, State (<[this := v]> (objs σ)) w)
      | (Throw, w) => (Throw, State (objs σ) w)
      | (AssertFail, w) => (AssertFail, State (objs σ) w)
      end
  end.

(** [Vector(Vector&& other)] at the free address [this]. *)
Definition construct_move (this other : nat) (σ : state)
  : outcome unit * state :=
  match objs σ !! this, objs σ !! other with
  | None, Some o =>
      let '(v, o) := Vector_move o in
      (Ret tt, State (<[this := v]> (<[other := o]> (objs σ))) (env σ))
  | _, _ => (AssertFail, σ)
  end.

(** [Vector& operator=(const Vector& rhs)]. *)
Definition copy_assign (this rhs : nat) (σ : state) : outcome unit * state :=
  match objs σ !! this, objs σ !! rhs with
  | Some v, Some r =>
      if negb (this =? rhs) then
        let '(o, v, w) := Vector_copy_assign r v (env σ) in
        (o, State (<[this := v]> (objs σ)) w)
      else (Ret tt, σ)
  | _, _ => (AssertFail, σ)
  end.

(** [Vector& operator=(Vector&& rhs) noexcept]. *)
Definition move_assign (this rhs : nat) (σ : state) : outcome unit * state :=
  match objs σ !! this, objs σ !! rhs with
  | Some v, Some r =>
      if negb (this =? rhs) then
        let '(v, r) := Swap v r in
        (Ret tt, State (<[rhs := r]> (<[this := v]> (objs σ))) (env σ))
      else (Ret tt, σ)
  | _, _ => (AssertFail, σ)
  end.

(** [this->Swap(other)]. *)
Definition swap (this other : nat) (σ : state) : outcome unit * state :=
  match objs σ !! this, objs σ !! other with
  | Some v, Some o =>
      let '(v, o) := Swap v o in
      (Ret tt, State (<[other := o]> (<[this := v]> (objs σ))) (env σ))
  | _, _ => (AssertFail, σ)
  end.

(** The end of the lifetime of the object at [this]. *)
Definition destruct_object (this : nat) (σ : state) : outcome unit * state :=
  match objs σ !! this with
  | Some v => (Ret tt, State (delete this (objs σ)) (Vector_dtor v (env σ)))
  | None => (AssertFail, σ)
  end.

Inductive op :=
| NewDefault (this : nat)
| NewSized (this size : nat)
| NewCopy (this other : nat)
| NewMove (this other : nat)
| CopyAssign (this rhs : nat)
| MoveAssign (this rhs : nat)
| DoReserve (this new_capacity : nat)
| DoResize (this new_size : nat)
| DoPushBack (this : nat) (value : T)
| DoEmplaceBack (this : nat) (args : T)
| DoEmplace (this pos : nat) (args : T)
| DoInsert (this pos : nat) (value : T)
| DoErase (this pos : nat)
| DoPopBack (this : nat)
| DoSwap (this other : nat)
| Delete (this : nat).

Definition step (o : op) (σ : state) : outcome unit * state :=
  match o with
  | NewDefault this => construct this (λ w, (Ret Vector_default, w)) σ
  | NewSized this size => construct this (Vector_sized size) σ
  | NewCopy this other =>
      match objs σ !! other with
      | Some o => construct this (Vector_copy o) σ
      | None => (AssertFail, σ)
      end
  | NewMove this other => construct_move this other σ
  | CopyAssign this rhs => copy_assign this rhs σ
  | MoveAssign this rhs => move_assign this rhs σ
  | DoReserve this n => on_object this (Reserve n) σ
  | DoResize this n => on_object this (Resize n) σ
  | DoPushBack this x => on_object this (PushBack x) σ
  | DoEmplaceBack this x => on_object this (λ v w, discard (EmplaceBack x v w)) σ
  | DoEmplace this pos x => on_object this (λ v w, discard (Emplace pos x v w)) σ
  | DoInsert this pos x => on_object this (λ v w, discard (Insert pos x v w)) σ
  | DoErase this pos => on_object this (λ v w, discard (Erase pos v w)) σ
  | DoPopBack this => on_object this PopBack σ
  | DoSwap this other => swap this other σ
  | Delete this => destruct_object this σ
  end.

(** A program runs its operations in order; the caller catches what they
    throw and goes on; a failed assert ends the run. *)
Fixpoint run (ops : list op) (σ : state) : state :=
  match ops with
  | [] => σ
  | o :: ops =>
      match step o σ with
      | (AssertFail, σ) => σ
      | (_, σ) => run ops σ
      end
  end.

(** [PushBack] of each value in turn, stopping at the first call that does
    not return. *)
Fixpoint push_all (xs : list T) (v : Vector) (w : world)
  : outcome unit * Vector * world :=
  match xs with
  | [] => (Ret tt, v, w)
  | x :: xs =>
      match PushBack x v w with
      | (Ret _, v, w) => push_all xs v w
      | r => r
      end
  end.

(** ** Predicates of the statements *)

(** [v] holds the elements [xs]: its block has [capacity_] slots and the
    first [size_] of them are the live objects [xs], in order. *)
Definition Holds (v : Vector) (xs : list T) : Prop :=
  length (cells (data_ v)) = capacity_ (data_ v) ∧
  size_ v = length xs ∧
  contents v = Obj <$> xs.

(** The representation invariant of the data model: [Holds], and every slot
    from [size_] on is raw. *)
Definition Inv (v : Vector) (xs : list T) : Prop :=
  Holds v xs ∧ drop (size_ v) (cells (data_ v)) =
               replicate (capacity_ (data_ v) - size_ v) Raw.

(** A handle with a null buffer has capacity 0. *)
Definition handle_ok (m : RawMemory) : Prop :=
  buffer_ m = 0 → capacity_ m = 0.

(** The size does not exceed the capacity, and the handle is as above. *)
Definition sound (v : Vector) : Prop :=
  size_ v ≤ Capacity v ∧ handle_ok (data_ v).

(** No failure is scheduled. *)
Definition calm (w : world) : Prop := faults w = [].

(** A raw storage handle is empty. *)
Definition empty_handle (m : RawMemory) : Prop :=
  buffer_ m = 0 ∧ capacity_ m = 0.



(** * Properties *)

(** ** RawMemory: what a move leaves in its source *)

Lemma RawMemory_move_spec (other : RawMemory) :
  RawMemory_move other =
    (mkRawMemory (buffer_ other) (capacity_ other) (cells other),
     RawMemory_default).
Proof. reflexivity. Qed.

(** C3, as amended.  Move construction leaves its source empty (null buffer,
    capacity 0) and hands the source's buffer and capacity to the new handle.
    Move assignment exchanges the two handles: the source ends up with the
    buffer and the capacity the target had before, so it is empty exactly when
    the target was; when both already hold the same buffer pointer nothing
    changes. *)
Theorem RawMemory_move_leaves (this rhs : RawMemory) :
  empty_handle (RawMemory_move rhs).2 ∧
  buffer_ (RawMemory_move rhs).1 = buffer_ rhs ∧
  capacity_ (RawMemory_move rhs).1 = capacity_ rhs ∧
  (buffer_ rhs ≠ buffer_ this →
     buffer_ (RawMemory_move_assign this rhs).2 = buffer_ this ∧
     capacity_ (RawMemory_move_assign this rhs).2 = capacity_ this ∧
     buffer_ (RawMemory_move_assign this rhs).1 = buffer_ rhs ∧
     capacity_ (RawMemory_move_assign this rhs).1 = capacity_ rhs ∧
     (empty_handle (RawMemory_move_assign this rhs).2 ↔ empty_handle this)) ∧
  (buffer_ rhs = buffer_ this →
     RawMemory_move_assign this rhs = (this, rhs)).
Proof.
  split; [by split|]. do 2 (split; [done|]). split.
  - intros Hne. unfold RawMemory_move_assign.
    apply Nat.eqb_neq in Hne. rewrite Hne. simpl.
    unfold empty_handle. simpl. do 4 (split; [done|]). reflexivity.
  - intros Heq. unfold RawMemory_move_assign.
    apply Nat.eqb_eq in Heq. by rewrite Heq.
Qed.

(** ** Emplace and EmplaceBack: the two functions' own equations *)

Lemma Emplace_unfold pos args v w :
  Emplace pos args v w = Emplace_body EmplaceBack pos args v w.
Proof. reflexivity. Qed.

Lemma Emplace_body_full f g pos args v w :
  size_ v = Capacity v →
  Emplace_body f pos args v w = Emplace_body g pos args v w.
Proof.
  intros Hfull. unfold Emplace_body.
  apply Nat.eqb_eq in Hfull. by rewrite Hfull.
Qed.

Lemma EmplaceBack_unfold args v w :
  EmplaceBack args v w = EmplaceBack_body Emplace args v w.
Proof.
  unfold EmplaceBack, EmplaceBack_body.
  destruct (size_ v =? Capacity v) eqn:Hfull; [|done].
  apply Nat.eqb_eq in Hfull. cbn [Emplace_depth]. unfold Emplace.
  by rewrite (Emplace_body_full _ EmplaceBack).
Qed.

(** An insertion into a full vector, whichever function it entered by. *)
Lemma EmplaceBack_full args v w :
  size_ v = Capacity v →
  EmplaceBack args v w =
    match Emplace (size_ v) args v w with
    | (Ret _, v, w) => (Ret (size_ v - 1), v, w)
    | r => r
    end.
Proof.
  intros Hfull. rewrite EmplaceBack_unfold. unfold EmplaceBack_body.
  apply Nat.eqb_eq in Hfull. by rewrite Hfull.
Qed.

(** An insertion at [end()] into spare capacity is [EmplaceBack]'s. *)
Lemma Emplace_end_spare args v w :
  size_ v ≠ Capacity v →
  Emplace (size_ v) args v w = EmplaceBack args v w.
Proof.
  intros Hspare. unfold Emplace, Emplace_body.
  rewrite Nat.leb_refl. apply Nat.eqb_neq in Hspare. rewrite Hspare.
  by rewrite Nat.eqb_refl.
Qed.

(** What [Emplace] returns on a full vector is the position it was given,
    and the size it leaves is one more. *)
Lemma Emplace_full_ret pos args v w r v' w' :
  size_ v = Capacity v →
  Emplace pos args v w = (Ret r, v', w') →
  r = pos ∧ size_ v' = S (size_ v).
Proof.
  intros Hfull. unfold Emplace, Emplace_body.
  apply Nat.eqb_eq in Hfull. rewrite Hfull.
  intros H. repeat case_match; simplify_eq; done.
Qed.

(** The two entry points meet: full, [EmplaceBack] is [Emplace] at [end()]
    with the reference read off the new last slot, which is the slot
    [Emplace] returns; with spare capacity, [Emplace] at [end()] is
    [EmplaceBack]. *)
Lemma Emplace_at_end args v w :
  Emplace (size_ v) args v w = EmplaceBack args v w.
Proof.
  destruct (decide (size_ v = Capacity v)) as [Hfull|Hspare].
  - rewrite EmplaceBack_full by done.
    destruct (Emplace (size_ v) args v w) as [[[r| |] v'] w'] eqn:HE; try done.
    destruct (Emplace_full_ret _ _ _ _ _ _ _ Hfull HE) as [-> Hsize].
    rewrite Hsize. by rewrite Nat.sub_1_r.
  - by apply Emplace_end_spare.
Qed.

(** C8.  [Emplace(end(), args...)] and [EmplaceBack(args...)] end the same
    way in every state and every world: the same outcome (the returned
    iterator and the returned reference designate the same slot), the same
    vector (size, capacity, buffer, slots), the same world, with spare
    capacity as well as when the vector has to grow, under either transfer
    strategy. *)
Theorem Emplace_end_is_EmplaceBack (args : T) (v : Vector) (w : world) :
  Emplace (size_ v) args v w = EmplaceBack args v w ∧
  size_ (Emplace (size_ v) args v w).1.2 = size_ (EmplaceBack args v w).1.2 ∧
  Capacity (Emplace (size_ v) args v w).1.2 =
    Capacity (EmplaceBack args v w).1.2 ∧
  contents (Emplace (size_ v) args v w).1.2 =
    contents (EmplaceBack args v w).1.2.
Proof. by rewrite Emplace_at_end. Qed.

(** ** The fault schedule through the primitives and the algorithms *)

Lemma tick_calm w : calm w → tick w = (false, w).
Proof. unfold calm, tick. by intros ->. Qed.

Lemma note_calm e w : calm w → calm (note e w).
Proof. done. Qed.

Lemma construct_at_faults c i x w c' w' :
  construct_at c i x w = (c', w') → faults w' = faults w.
Proof. unfold construct_at. intros. repeat case_match; by simplify_eq. Qed.

Lemma destroy_at_faults c i w c' w' :
  destroy_at c i w = (c', w') → faults w' = faults w.
Proof. unfold destroy_at. intros. repeat case_match; by simplify_eq. Qed.

Lemma move_construct_faults src i dst d w src' dst' w' :
  move_construct src i dst d w = (src', dst', w') → faults w' = faults w.
Proof.
  unfold move_construct. intros.
  repeat case_match; simplify_eq; eauto using construct_at_faults.
Qed.

Lemma destroy_n_faults n : ∀ c first w c' w',
  destroy_n c first n w = (c', w') → faults w' = faults w.
Proof.
  induction n as [|n IH]; simpl; intros c first w c' w' H; [by simplify_eq|].
  destruct (destroy_at c first w) as [c1 w1] eqn:H1.
  apply IH in H. rewrite H. eauto using destroy_at_faults.
Qed.

Lemma uninitialized_move_n_faults n : ∀ src first dst d w src' dst' w',
  uninitialized_move_n src first n dst d w = (src', dst', w') →
  faults w' = faults w.
Proof.
  induction n as [|n IH]; simpl; intros src first dst d w src' dst' w' H;
    [by simplify_eq|].
  destruct (move_construct src first dst d w) as [[s1 d1] w1] eqn:H1.
  apply IH in H. rewrite H. eauto using move_construct_faults.
Qed.

Lemma Deallocate_faults c : ∀ w, faults (Deallocate c w) = faults w.
Proof.
  unfold Deallocate. induction c as [|[|x] c IH]; simpl; intros w; [done|done|].
  by rewrite IH.
Qed.

Lemma uninitialized_copy_n_calm n : ∀ src first dst d w ok dst' w',
  calm w →
  uninitialized_copy_n src first n dst d w = (ok, dst', w') →
  ok = true ∧ calm w'.
Proof.
  induction n as [|n IH]; simpl; intros src first dst d w ok dst' w' Hw H;
    [by simplify_eq|].
  destruct (src !! first) as [[|x]|]; [by eapply IH, H| |by eapply IH, H].
  rewrite tick_calm in H by done.
  destruct (construct_at dst d x w) as [d1 w1] eqn:H1.
  destruct (uninitialized_copy_n src (S first) n d1 (S d) w1)
    as [[ok2 d2] w2] eqn:H2.
  apply IH in H2 as [-> Hw2].
  - by simplify_eq.
  - unfold calm. by rewrite (construct_at_faults _ _ _ _ _ _ H1).
Qed.

(** ** RawMemory(capacity) *)

Lemma RawMemory_new_Some n w m w' :
  RawMemory_new n w = (Some m, w') →
  capacity_ m = n ∧ cells m = replicate n Raw ∧ log w' = log w ∧
  (calm w → calm w') ∧ handle_ok m.
Proof.
  unfold RawMemory_new, Allocate, tick, handle_ok. intros H.
  repeat case_match; simplify_eq; simpl; repeat split; try done.
  all: try (by intros _; apply Nat.eqb_eq).
  all: unfold calm; simpl; congruence.
Qed.

Lemma RawMemory_new_None n w w' :
  RawMemory_new n w = (None, w') → log w' = log w.
Proof.
  unfold RawMemory_new, Allocate, tick. intros H.
  repeat case_match; simplify_eq; simpl; done.
Qed.

Lemma RawMemory_new_calm n w :
  calm w → ∃ m w', RawMemory_new n w = (Some m, w') ∧ calm w'.
Proof.
  unfold RawMemory_new, Allocate. intros Hw.
  destruct (n =? 0); [by eauto|].
  rewrite tick_calm by done. by eauto.
Qed.

(** ** Growth: what an insertion into a full vector does to the fields *)

Lemma Emplace_full_outcome pos args v w r v' w' :
  size_ v = Capacity v →
  Emplace pos args v w = (r, v', w') →
  match r with
  | Ret i => i = pos ∧ Capacity v' = max 1 (2 * Capacity v) ∧
             size_ v' = S (size_ v)
  | Throw => v' = v
  | AssertFail => ¬ pos ≤ size_ v ∧ v' = v
  end.
Proof.
  intros Hfull. unfold Emplace, Emplace_body.
  destruct (pos <=? size_ v) eqn:Hpos; simpl.
  2: { intros; simplify_eq. apply Nat.leb_gt in Hpos. split; [lia|done]. }
  pose proof Hfull as Hfull'. apply Nat.eqb_eq in Hfull'. rewrite Hfull'.
  destruct (RawMemory_new _ w) as [[new_data|] w1] eqn:Hnew;
    [|by intros; simplify_eq].
  apply RawMemory_new_Some in Hnew as (Hcap & _).
  intros H. repeat case_match; simplify_eq; try done.
  all: simpl; unfold Capacity in *; simpl; repeat split; try done.
  all: rewrite Hcap; match goal with H : (0 <? _) = _ |- _ =>
         first [apply Nat.ltb_lt in H | apply Nat.ltb_ge in H] end; lia.
Qed.

Lemma Emplace_full_calm pos args v w :
  size_ v = Capacity v → pos ≤ size_ v → calm w →
  ∃ v' w', Emplace pos args v w = (Ret pos, v', w') ∧ calm w'.
Proof.
  intros Hfull Hpos Hw. unfold Emplace, Emplace_body.
  apply Nat.leb_le in Hpos. rewrite Hpos. simpl.
  apply Nat.eqb_eq in Hfull. rewrite Hfull.
  destruct (RawMemory_new_calm (if 0 <? size_ v then size_ v * 2 else 1) w Hw)
    as (new_data & w1 & -> & Hw1).
  rewrite tick_calm by done.
  destruct (construct_at (cells new_data) pos args w1) as [c1 w2] eqn:H1.
  assert (calm w2) as Hw2
    by (unfold calm; by rewrite (construct_at_faults _ _ _ _ _ _ H1)).
  destruct nothrow_move_or_not_copyable.
  - destruct (uninitialized_move_n (cells (data_ v)) 0 pos c1 0 w2)
      as [[o1 n1] w3] eqn:H2.
    destruct (uninitialized_move_n o1 pos (size_ v - pos) n1 (pos + 1) w3)
      as [[o2 n2] w4] eqn:H3. simpl.
    destruct (DestroyN o2 0 (size_ v) w4) as [c5 w5] eqn:H5.
    eexists _, _. split; [done|].
    unfold calm, RawMemory_dtor. rewrite Deallocate_faults.
    rewrite (destroy_n_faults _ _ _ _ _ _ H5).
    rewrite (uninitialized_move_n_faults _ _ _ _ _ _ _ _ _ H3).
    by rewrite (uninitialized_move_n_faults _ _ _ _ _ _ _ _ _ H2).
  - destruct (uninitialized_copy_n (cells (data_ v)) 0 pos c1 0 w2)
      as [[ok n1] w3] eqn:H2.
    apply uninitialized_copy_n_calm in H2 as [-> Hw3]; [|done].
    destruct (uninitialized_copy_n (cells (data_ v)) pos (size_ v - pos) n1 0 w3)
      as [[ok n2] w4] eqn:H3.
    apply uninitialized_copy_n_calm in H3 as [-> Hw4]; [|done]. simpl.
    destruct (DestroyN (cells (data_ v)) 0 (size_ v) w4) as [c5 w5] eqn:H5.
    eexists _, _. split; [done|].
    unfold calm, RawMemory_dtor. rewrite Deallocate_faults.
    by rewrite (destroy_n_faults _ _ _ _ _ _ H5).
Qed.

(** C5.  On a vector whose size equals its capacity, each of the four
    insertions that returns leaves the capacity at exactly
    [max 1 (2 * old capacity)]: 1 from capacity 0, twice the old capacity
    otherwise.  With no failure scheduled all four return. *)
Theorem growth_doubles_capacity (v : Vector) (w : world) (pos : nat) (x : T) :
  size_ v = Capacity v → pos ≤ size_ v →
  (∀ r v' w', EmplaceBack x v w = (Ret r, v', w') →
     Capacity v' = max 1 (2 * Capacity v)) ∧
  (∀ r v' w', PushBack x v w = (Ret r, v', w') →
     Capacity v' = max 1 (2 * Capacity v)) ∧
  (∀ r v' w', Emplace pos x v w = (Ret r, v', w') →
     Capacity v' = max 1 (2 * Capacity v)) ∧
  (∀ r v' w', Insert pos x v w = (Ret r, v', w') →
     Capacity v' = max 1 (2 * Capacity v)) ∧
  (calm w →
     (∃ v' w', EmplaceBack x v w = (Ret (size_ v), v', w')) ∧
     (∃ v' w', PushBack x v w = (Ret tt, v', w')) ∧
     (∃ v' w', Emplace pos x v w = (Ret pos, v', w')) ∧
     (∃ v' w', Insert pos x v w = (Ret pos, v', w'))).
Proof.
  intros Hfull Hpos.
  assert (∀ p r v' w', Emplace p x v w = (Ret r, v', w') →
            Capacity v' = max 1 (2 * Capacity v)) as HE.
  { intros p r v' w' H.
    by destruct (Emplace_full_outcome _ _ _ _ _ _ _ Hfull H) as (_ & ? & _). }
  assert (∀ r v' w', EmplaceBack x v w = (Ret r, v', w') →
            Capacity v' = max 1 (2 * Capacity v)) as HB.
  { intros r v' w'. rewrite <- Emplace_at_end. apply HE. }
  split; [done|]. split.
  { intros r v' w'. unfold PushBack.
    destruct (EmplaceBack x v w) as [[[i| |] v1] w1] eqn:H; simpl;
      intros; simplify_eq. eauto. }
  split; [by apply HE|]. split; [by apply HE|].
  intros Hw.
  destruct (Emplace_full_calm pos x v w Hfull Hpos Hw) as (v1 & w1 & H1 & _).
  destruct (Emplace_full_calm (size_ v) x v w Hfull (le_n _) Hw)
    as (v2 & w2 & H2 & _).
  rewrite Emplace_at_end in H2.
  unfold PushBack, Insert. rewrite H1, H2. simpl.
  repeat split; by eexists _, _.
Qed.

(** ** The invariant [size_ <= capacity_], operation by operation *)

Lemma discard_inv {A} (r : outcome A * Vector * world) o v w :
  discard r = (o, v, w) → ∃ o', r = (o', v, w).
Proof. destruct r as [[[a| |] v1] w1]; simpl; intros; simplify_eq; eauto. Qed.

Ltac fields :=
  unfold sound, handle_ok, Capacity, RawMemory_Swap, RawMemory_plus,
    RawMemory_at, set_cells in *; simpl in *.

Ltac by_cases :=
  repeat case_match; simplify_eq; simpl in *;
  repeat match goal with
  | H : negb _ = true |- _ => apply negb_true_iff in H
  | H : negb _ = false |- _ => apply negb_false_iff in H
  | H : (_ <? _) = true |- _ => apply Nat.ltb_lt in H
  | H : (_ <? _) = false |- _ => apply Nat.ltb_ge in H
  | H : (_ <=? _) = true |- _ => apply Nat.leb_le in H
  | H : (_ <=? _) = false |- _ => apply Nat.leb_gt in H
  | H : (_ =? _) = true |- _ => apply Nat.eqb_eq in H
  | H : (_ =? _) = false |- _ => apply Nat.eqb_neq in H
  end.

Lemma Reserve_fields n v w o v' w' :
  Reserve n v w = (o, v', w') →
  size_ v' = size_ v ∧
  (handle_ok (data_ v) → handle_ok (data_ v')) ∧
  match o with
  | Ret _ => Capacity v' = max n (Capacity v)
  | Throw => v' = v
  | AssertFail => False
  end.
Proof.
  unfold Reserve.
  destruct (n <=? capacity_ (data_ v)) eqn:Hn.
  { intros; simplify_eq. apply Nat.leb_le in Hn. fields.
    split; [done|]. split; [done|lia]. }
  apply Nat.leb_gt in Hn.
  destruct (RawMemory_new n w) as [[new_data|] w1] eqn:Hnew;
    [|by intros; simplify_eq].
  apply RawMemory_new_Some in Hnew as (Hcap & _ & _ & _ & Hok).
  fields. intros H. by_cases; repeat split; try done; lia.
Qed.

Lemma Reserve_sound n v w o v' w' :
  sound v → Reserve n v w = (o, v', w') → sound v'.
Proof.
  intros [Hv Hok] H. apply Reserve_fields in H as (Hs & Hok' & Ho).
  split; [|by auto]. destruct o; [lia|by subst|done].
Qed.

Lemma Resize_sound n v w o v' w' :
  sound v → Resize n v w = (o, v', w') → sound v'.
Proof.
  unfold Resize. intros Hv.
  destruct (n =? size_ v) eqn:Heq; [by intros; simplify_eq|].
  destruct (n <? size_ v) eqn:Hlt.
  - fields. intros H. by_cases; split; try done; lia.
  - apply Nat.ltb_ge in Hlt.
    destruct (Reserve n v w) as [[[[]| |] v1] w1] eqn:HR.
    + pose proof (Reserve_sound _ _ _ _ _ _ Hv HR) as Hv1.
      apply Reserve_fields in HR as (Hs & _ & Hc).
      fields. intros H. by_cases; split; try done; lia.
    + intros; simplify_eq. eauto using Reserve_sound.
    + intros; simplify_eq. eauto using Reserve_sound.
Qed.

Lemma EmplaceBack_spare_fields args v w o v' w' :
  size_ v ≠ Capacity v →
  EmplaceBack args v w = (o, v', w') →
  capacity_ (data_ v') = capacity_ (data_ v) ∧
  buffer_ (data_ v') = buffer_ (data_ v) ∧
  match o with
  | Ret i => i = size_ v ∧ size_ v' = S (size_ v)
  | Throw => v' = v
  | AssertFail => False
  end.
Proof.
  intros Hspare. unfold EmplaceBack, EmplaceBack_body.
  apply Nat.eqb_neq in Hspare. rewrite Hspare.
  intros H. by_cases; repeat split; try done; lia.
Qed.

Lemma Emplace_full_handle pos args v w o v' w' :
  size_ v = Capacity v →
  handle_ok (data_ v) →
  Emplace pos args v w = (o, v', w') →
  handle_ok (data_ v').
Proof.
  intros Hfull Hok. unfold Emplace, Emplace_body.
  destruct (pos <=? size_ v) eqn:Hpos; simpl; [|by intros; simplify_eq].
  apply Nat.eqb_eq in Hfull. rewrite Hfull.
  destruct (RawMemory_new _ w) as [[new_data|] w1] eqn:Hnew;
    [|by intros; simplify_eq].
  apply RawMemory_new_Some in Hnew as (Hcap & _ & _ & _ & Hok').
  fields. intros H. by_cases; done.
Qed.

Lemma Emplace_sound pos args v w o v' w' :
  sound v → Emplace pos args v w = (o, v', w') → sound v'.
Proof.
  intros [Hv Hok] H.
  destruct (decide (size_ v = Capacity v)) as [Hfull|Hspare].
  { split; [|by eauto using Emplace_full_handle].
    apply Emplace_full_outcome in H; [|done].
    destruct o; [lia|by subst|by destruct H as [_ ->]]. }
  revert H. unfold Emplace, Emplace_body.
  destruct (pos <=? size_ v) eqn:Hpos; simpl; [|by intros; simplify_eq].
  pose proof Hspare as Hspare'. apply Nat.eqb_neq in Hspare'. rewrite Hspare'.
  destruct (size_ v =? pos) eqn:Hend.
  - intros H. apply EmplaceBack_spare_fields in H as (Hc & Hb & Ho); [|done].
    fields. split; [|by rewrite Hb, Hc].
    destruct o; [lia|by subst|done].
  - fields. intros H. by_cases; split; try done; lia.
Qed.

Lemma EmplaceBack_sound args v w o v' w' :
  sound v → EmplaceBack args v w = (o, v', w') → sound v'.
Proof. rewrite <- Emplace_at_end. apply Emplace_sound. Qed.

Lemma PushBack_sound x v w o v' w' :
  sound v → PushBack x v w = (o, v', w') → sound v'.
Proof.
  unfold PushBack. intros Hv H. apply discard_inv in H as [o' H].
  eauto using EmplaceBack_sound.
Qed.

Lemma Erase_sound pos v w o v' w' :
  sound v → Erase pos v w = (o, v', w') → sound v'.
Proof.
  unfold Erase. fields. intros Hv H. by_cases; split; try done; lia.
Qed.

Lemma PopBack_sound v w o v' w' :
  sound v → PopBack v w = (o, v', w') → sound v'.
Proof.
  unfold PopBack. fields. intros Hv H. by_cases; split; try done; lia.
Qed.

Lemma Vector_sized_sound n w v w' :
  Vector_sized n w = (Ret v, w') → sound v.
Proof.
  unfold Vector_sized.
  destruct (RawMemory_new n w) as [[data|] w1] eqn:Hnew;
    [|by intros; simplify_eq].
  apply RawMemory_new_Some in Hnew as (Hcap & _ & _ & _ & Hok).
  fields. intros H. by_cases; split; try done; lia.
Qed.

Lemma Vector_copy_fields other w v w' :
  Vector_copy other w = (Ret v, w') →
  size_ v = size_ other ∧ Capacity v = size_ other ∧ handle_ok (data_ v).
Proof.
  unfold Vector_copy.
  destruct (RawMemory_new (size_ other) w) as [[data|] w1] eqn:Hnew;
    [|by intros; simplify_eq].
  apply RawMemory_new_Some in Hnew as (Hcap & _ & _ & _ & Hok).
  fields. intros H. by_cases; done.
Qed.

Lemma Vector_copy_assign_sound rhs v w o v' w' :
  sound v → Vector_copy_assign rhs v w = (o, v', w') → sound v'.
Proof.
  unfold Vector_copy_assign. intros Hv.
  destruct (Capacity v <? size_ rhs) eqn:Hgrow.
  - destruct (Vector_copy rhs w) as [[rhs_copy| |] w1] eqn:Hcopy;
      [|by intros; simplify_eq..].
    apply Vector_copy_fields in Hcopy as (Hs & Hc & Hok).
    unfold Swap. fields. intros; simplify_eq. simpl. split; [lia|done].
  - unfold CopyElementsFromVector. fields.
    intros H. by_cases; split; try done; lia.
Qed.

Lemma Vector_move_sound other v other' :
  sound other → Vector_move other = (v, other') → sound v ∧ sound other'.
Proof.
  unfold Vector_move, RawMemory_move_assign. fields.
  intros Ho H. by_cases; repeat split; try done; lia.
Qed.

Lemma Swap_sound v other v' other' :
  sound v → sound other → Swap v other = (v', other') →
  sound v' ∧ sound other'.
Proof. unfold Swap. fields. intros ? ? ?. by simplify_eq. Qed.

(** Every vector of a state is sound. *)
Lemma on_object_sound {A} this
    (f : Vector → world → outcome A * Vector * world) σ o σ' :
  (∀ v w o v' w', sound v → f v w = (o, v', w') → sound v') →
  map_Forall (λ _, sound) (objs σ) →
  on_object this f σ = (o, σ') →
  map_Forall (λ _, sound) (objs σ').
Proof.
  intros Hf Hσ. unfold on_object.
  destruct (objs σ !! this) as [v|] eqn:Hv; [|by intros; simplify_eq].
  destruct (f v (env σ)) as [[o1 v1] w1] eqn:Hfv.
  intros; simplify_eq. simpl.
  apply map_Forall_insert_2; [|done].
  eapply Hf; [|done]. by eapply (map_Forall_lookup_1 _ _ _ _ Hσ).
Qed.

Lemma construct_sound this f σ o σ' :
  (∀ w v w', f w = (Ret v, w') → sound v) →
  map_Forall (λ _, sound) (objs σ) →
  construct this f σ = (o, σ') →
  map_Forall (λ _, sound) (objs σ').
Proof.
  intros Hf Hσ. unfold construct.
  destruct (objs σ !! this); [by intros; simplify_eq|].
  destruct (f (env σ)) as [[v| |] w1] eqn:Hfv; intros; simplify_eq; simpl;
    [|done..].
  apply map_Forall_insert_2; eauto.
Qed.

Lemma step_sound o σ r σ' :
  map_Forall (λ _, sound) (objs σ) →
  step o σ = (r, σ') →
  map_Forall (λ _, sound) (objs σ').
Proof.
  intros Hσ.
  assert (∀ a v, objs σ !! a = Some v → sound v) as Hget
    by (intros a v; apply (map_Forall_lookup_1 _ _ _ _ Hσ)).
  destruct o; simpl.
  - apply construct_sound; [|done]. intros; simplify_eq.
    unfold Vector_default. fields. split; [lia|done].
  - apply construct_sound; [|done]. eauto using Vector_sized_sound.
  - destruct (objs σ !! other) as [ov|] eqn:Ho; [|by intros; simplify_eq].
    apply construct_sound; [|done]. intros w v w' H.
    apply Vector_copy_fields in H as (Hs & Hc & Hok). split; [lia|done].
  - unfold construct_move.
    destruct (objs σ !! this); [by intros; simplify_eq|].
    destruct (objs σ !! other) as [ov|] eqn:Ho; [|by intros; simplify_eq].
    destruct (Vector_move ov) as [v1 o1] eqn:Hm.
    apply Vector_move_sound in Hm as [? ?]; [|by eauto].
    intros; simplify_eq. simpl. by repeat apply map_Forall_insert_2.
  - unfold copy_assign.
    destruct (objs σ !! this) as [v|] eqn:Hv; [|by intros; simplify_eq].
    destruct (objs σ !! rhs) as [rv|] eqn:Hr; [|by intros; simplify_eq].
    destruct (negb (this =? rhs)); [|by intros; simplify_eq].
    destruct (Vector_copy_assign rv v (env σ)) as [[o1 v1] w1] eqn:H1.
    intros; simplify_eq. simpl. apply map_Forall_insert_2; [|done].
    eauto using Vector_copy_assign_sound.
  - unfold move_assign.
    destruct (objs σ !! this) as [v|] eqn:Hv; [|by intros; simplify_eq].
    destruct (objs σ !! rhs) as [rv|] eqn:Hr; [|by intros; simplify_eq].
    destruct (negb (this =? rhs)); [|by intros; simplify_eq].
    destruct (Swap v rv) as [v1 r1] eqn:Hs.
    apply Swap_sound in Hs as [? ?]; [|by eauto..].
    intros; simplify_eq. simpl. by repeat apply map_Forall_insert_2.
  - apply on_object_sound; [|done]. apply Reserve_sound.
  - apply on_object_sound; [|done]. apply Resize_sound.
  - apply on_object_sound; [|done]. apply PushBack_sound.
  - apply on_object_sound; [|done]. intros v w o v' w' Hv H.
    apply discard_inv in H as [o' H]. eauto using EmplaceBack_sound.
  - apply on_object_sound; [|done]. intros v w o v' w' Hv H.
    apply discard_inv in H as [o' H]. eauto using Emplace_sound.
  - apply on_object_sound; [|done]. intros v w o v' w' Hv H.
    apply discard_inv in H as [o' H]. eauto using Emplace_sound.
  - apply on_object_sound; [|done]. intros v w o v' w' Hv H.
    apply discard_inv in H as [o' H]. eauto using Erase_sound.
  - apply on_object_sound; [|done]. apply PopBack_sound.
  - unfold swap.
    destruct (objs σ !! this) as [v|] eqn:Hv; [|by intros; simplify_eq].
    destruct (objs σ !! other) as [ov|] eqn:Ho; [|by intros; simplify_eq].
    destruct (Swap v ov) as [v1 o1] eqn:Hs.
    apply Swap_sound in Hs as [? ?]; [|by eauto..].
    intros; simplify_eq. simpl. by repeat apply map_Forall_insert_2.
  - unfold destruct_object.
    destruct (objs σ !! this); intros; simplify_eq; simpl; [|done].
    by apply map_Forall_delete.
Qed.

Lemma run_sound ops : ∀ σ,
  map_Forall (λ _, sound) (objs σ) →
  map_Forall (λ _, sound) (objs (run ops σ)).
Proof.
  induction ops as [|o ops IH]; simpl; intros σ Hσ; [done|].
  destruct (step o σ) as [[[]| |] σ1] eqn:Hstep;
    eauto using step_sound.
Qed.

(** C7.  Start from no object at all, in any world, and run any sequence of
    constructions (default, sized, copy, move), assignments (copy, move),
    [Reserve], [Resize], [PushBack], [EmplaceBack], [Emplace], [Insert],
    [Erase], [PopBack], [Swap] and destructions, whatever each of them throws
    (an operation called outside its precondition fails its assert, which
    ends the run): every vector of the state reached satisfies
    [size_ <= capacity_].  The sequence is arbitrary, so this holds after
    each operation. *)
Theorem size_le_capacity_always (ops : list op) (w : world) :
  map_Forall (λ _ v, size_ v ≤ Capacity v) (objs (run ops (State ∅ w))).
Proof.
  eapply map_Forall_impl; [apply (run_sound ops (State ∅ w))|].
  - simpl. apply map_Forall_empty.
  - by intros _ v [Hv _].
Qed.

(** ** Self-assignment *)

(** C10.  Assigning a vector to itself changes nothing, by copy and by move:
    the test [this != &rhs] guards both operators, so the call returns with
    the whole state (this vector's size, capacity, buffer and slots, every
    other object, the world) as it was. *)
Theorem self_assignment_no_op (this : nat) (v : Vector) (σ : state) :
  objs σ !! this = Some v →
  copy_assign this this σ = (Ret tt, σ) ∧
  move_assign this this σ = (Ret tt, σ).
Proof.
  intros Hv. unfold copy_assign, move_assign.
  by rewrite Hv, Nat.eqb_refl.
Qed.

(** Between two different objects the guard lets the assignment through. *)
Lemma move_assign_distinct this rhs v r σ :
  this ≠ rhs → objs σ !! this = Some v → objs σ !! rhs = Some r →
  move_assign this rhs σ =
    (Ret tt, State (<[rhs := mkVector (data_ v) (size_ v)]>
                      (<[this := mkVector (data_ r) (size_ r)]> (objs σ)))
                   (env σ)).
Proof.
  intros Hne Hv Hr. unfold move_assign. rewrite Hv, Hr.
  apply Nat.eqb_neq in Hne. rewrite Hne. simpl.
  by destruct v as [[]], r as [[]].
Qed.

(** ** The algorithms on live elements *)

Lemma tick_frame w b w' :
  tick w = (b, w') → log w' = log w ∧ next_addr w' = next_addr w.
Proof. unfold tick. intros. by repeat case_match; simplify_eq. Qed.

Lemma construct_at_raw c i x w :
  c !! i = Some Raw → construct_at c i x w = (<[i := Obj x]> c, w).
Proof. unfold construct_at. by intros ->. Qed.

Lemma construct_at_cells c i x w c' w' :
  i < length c → construct_at c i x w = (c', w') → c' = <[i := Obj x]> c.
Proof.
  intros Hi. apply lookup_lt_is_Some in Hi as [s Hs].
  unfold construct_at. rewrite Hs. by destruct s; intros; simplify_eq.
Qed.

Lemma Deallocate_raw n w : Deallocate (replicate n Raw) w = w.
Proof. unfold Deallocate. by induction n. Qed.

(** Where the transferred elements end up, for the move-based transfer. *)
Lemma uninitialized_move_n_dst xs : ∀ src first dst d w src' dst' w',
  (∀ i x, xs !! i = Some x → src !! (first + i) = Some (Obj x)) →
  d + length xs ≤ length dst →
  uninitialized_move_n src first (length xs) dst d w = (src', dst', w') →
  dst' = take d dst ++ (Obj <$> xs) ++ drop (d + length xs) dst.
Proof.
  induction xs as [|x xs IH]; simpl;
    intros src first dst d w src' dst' w' Hsrc Hd H.
  { simplify_eq. by rewrite Nat.add_0_r, take_drop. }
  pose proof (Hsrc 0 x eq_refl) as H0. rewrite Nat.add_0_r in H0.
  unfold move_construct in H. rewrite H0 in H.
  destruct (construct_at dst d x w) as [d1 w1] eqn:H1.
  apply construct_at_cells in H1; [|lia]. subst d1.
  apply IH in H.
  - rewrite H.
    rewrite (take_S_r _ _ (Obj x)) by (apply list_lookup_insert_eq; lia).
    rewrite take_insert_ge by lia. rewrite drop_insert_lt by lia.
    rewrite <- app_assoc. simpl. by replace (d + S (length xs))
      with (S d + length xs) by lia.
  - intros i y Hy. rewrite list_lookup_insert_ne by lia.
    replace (S first + i) with (first + S i) by lia. by apply Hsrc.
  - rewrite length_insert. lia.
Qed.

(** The copy-based transfer into raw slots: either every element is copied,
    or the destination is as it was; the log and the allocator are not
    touched either way. *)
Lemma uninitialized_copy_n_spec xs : ∀ src first dst d w ok dst' w',
  (∀ i x, xs !! i = Some x → src !! (first + i) = Some (Obj x)) →
  (∀ i, i < length xs → dst !! (d + i) = Some Raw) →
  uninitialized_copy_n src first (length xs) dst d w = (ok, dst', w') →
  log w' = log w ∧ next_addr w' = next_addr w ∧
  dst' = if ok then take d dst ++ (Obj <$> xs) ++ drop (d + length xs) dst
         else dst.
Proof.
  induction xs as [|x xs IH]; simpl;
    intros src first dst d w ok dst' w' Hsrc Hraw H.
  { simplify_eq. by rewrite Nat.add_0_r, take_drop. }
  pose proof (Hsrc 0 x eq_refl) as H0. rewrite Nat.add_0_r in H0.
  pose proof (Hraw 0 ltac:(lia)) as Hd. rewrite Nat.add_0_r in Hd.
  rewrite H0 in H.
  destruct (tick w) as [fail w1] eqn:Ht. apply tick_frame in Ht as [Hl Hn].
  destruct fail; [by simplify_eq|].
  rewrite construct_at_raw in H by done.
  destruct (uninitialized_copy_n src (S first) (length xs)
              (<[d:=Obj x]> dst) (S d) w1) as [[ok2 d2] w2] eqn:H2.
  assert (d < length dst) as Hlt by (by eapply lookup_lt_Some).
  apply IH in H2 as (Hl2 & Hn2 & Hd2).
  - destruct ok2; simplify_eq.
    + split; [congruence|]. split; [congruence|].
      rewrite (take_S_r _ _ (Obj x)) by (by apply list_lookup_insert_eq).
      rewrite take_insert_ge by lia. rewrite drop_insert_lt by lia.
      rewrite <- app_assoc. simpl. by replace (d + S (length xs))
        with (S d + length xs) by lia.
    + unfold destroy_at in H. rewrite list_lookup_insert_eq in H by done.
      simplify_eq. split; [congruence|]. split; [congruence|].
      rewrite list_insert_insert_eq. by apply list_insert_id.
  - intros i y Hy.
    replace (S first + i) with (first + S i) by lia. by apply Hsrc.
  - intros i Hi. rewrite list_lookup_insert_ne by lia.
    replace (S d + i) with (d + S i) by lia. apply Hraw. lia.
Qed.

(** ** What a vector that holds [xs] looks like *)

Lemma Holds_lookup v xs i x :
  Holds v xs → xs !! i = Some x → cells (data_ v) !! (0 + i) = Some (Obj x).
Proof.
  intros (_ & Hs & Hc) Hx. simpl. unfold contents in Hc.
  assert ((Obj <$> xs) !! i = Some (Obj x)) as H
    by (by rewrite list_lookup_fmap, Hx).
  rewrite <- Hc in H. by apply lookup_take_Some in H as [? _].
Qed.

Lemma Holds_size_le v xs : Holds v xs → size_ v ≤ capacity_ (data_ v).
Proof.
  intros (Hl & Hs & Hc). unfold contents in Hc.
  apply (f_equal length) in Hc. rewrite length_take, length_fmap in Hc. lia.
Qed.

#[local] Instance Obj_inj : Inj (=) (=) Obj.
Proof. by intros ?? [= ->]. Qed.

Lemma Holds_inj v xs ys : Holds v xs → Holds v ys → xs = ys.
Proof.
  intros (_ & _ & Hx) (_ & _ & Hy). rewrite Hx in Hy.
  by apply (inj (fmap Obj)).
Qed.

(** The new block after a transfer of all of [xs] to its front. *)
Lemma Holds_transferred (m : RawMemory) (c : list slot) xs size :
  size = length xs → length xs ≤ length c → capacity_ m = length c →
  Holds (mkVector (set_cells m ((Obj <$> xs) ++ drop (length xs) c)) size) xs.
Proof.
  intros -> Hle Hcap. unfold Holds, contents. simpl.
  rewrite length_app, length_fmap, length_drop.
  split; [lia|]. split; [done|].
  by rewrite take_app_length' by (by rewrite length_fmap).
Qed.

(** ** Reserve *)





(** ** PushBack and EmplaceBack at the end *)

Lemma Holds_snoc b cap c size xs x :
  length c = cap → size = length xs →
  take size c = Obj <$> xs → c !! size = Some (Obj x) →
  Holds (mkVector (mkRawMemory b cap c) (S size)) (xs ++ [x]).
Proof.
  intros Hlen -> Htake Hx. unfold Holds, contents. simpl.
  split; [done|]. split; [rewrite length_app; simpl; lia|].
  by rewrite (take_S_r _ _ _ Hx), Htake, fmap_app.
Qed.

Lemma Vector_default_Holds : Holds Vector_default [].
Proof. done. Qed.

Lemma EmplaceBack_Holds x v xs w i v' w' :
  Holds v xs →
  EmplaceBack x v w = (Ret i, v', w') →
  i = length xs ∧ Holds v' (xs ++ [x]).
Proof.
  intros Hv. pose proof (Holds_size_le _ _ Hv) as Hle.
  pose proof Hv as (Hlen & Hsize & Hc). unfold contents in Hc.
  destruct (decide (size_ v = Capacity v)) as [Hfull|Hspare].
  - rewrite <- Emplace_at_end. unfold Emplace, Emplace_body.
    rewrite Nat.leb_refl. simpl.
    pose proof Hfull as Hfull'. apply Nat.eqb_eq in Hfull'. rewrite Hfull'.
    rewrite Nat.sub_diag.
    set (N := if 0 <? size_ v then size_ v * 2 else 1).
    assert (size_ v < N) as HN
      by (unfold N; destruct (0 <? size_ v) eqn:E;
          [apply Nat.ltb_lt in E|apply Nat.ltb_ge in E]; lia).
    destruct (RawMemory_new N w) as [[new_data|] w1] eqn:Hnew;
      [|by intros; simplify_eq].
    apply RawMemory_new_Some in Hnew as (Hcap & Hcells & _).
    destruct (tick w1) as [[] w2]; [by intros; simplify_eq|].
    rewrite Hcells.
    rewrite construct_at_raw by (apply lookup_replicate_2; lia).
    rewrite Hsize in *.
    set (c1 := <[length xs := Obj x]> (replicate N Raw)).
    assert (length c1 = N) as Hc1
      by (unfold c1; by rewrite length_insert, length_replicate).
    assert (∀ c2, c2 = take 0 c1 ++ (Obj <$> xs) ++ drop (0 + length xs) c1 →
              Holds (mkVector (mkRawMemory (buffer_ new_data)
                       (capacity_ new_data) c2) (S (length xs))) (xs ++ [x]))
      as Hfin.
    { intros c2 ->. simpl. apply Holds_snoc; [|done|..].
      - rewrite length_app, length_fmap, length_drop. lia.
      - by rewrite take_app_length' by (by rewrite length_fmap).
      - rewrite lookup_app_r by (by rewrite length_fmap).
        rewrite length_fmap, Nat.sub_diag, lookup_drop, Nat.add_0_r.
        unfold c1. apply list_lookup_insert_eq. rewrite length_replicate. lia. }
    destruct nothrow_move_or_not_copyable.
    + destruct (uninitialized_move_n (cells (data_ v)) 0 (length xs) c1 0 w2)
        as [[o2 c2] w3] eqn:H2.
      apply uninitialized_move_n_dst in H2.
      * unfold RawMemory_Swap. simpl. intros H. by_cases. eauto.
      * intros j y Hy. by eapply Holds_lookup.
      * lia.
    + destruct (uninitialized_copy_n (cells (data_ v)) 0 (length xs) c1 0 w2)
        as [[ok c2] w3] eqn:H2.
      apply uninitialized_copy_n_spec in H2 as (_ & _ & Hd2).
      * destruct ok; [|by intros; simplify_eq].
        unfold RawMemory_Swap. simpl. intros H. by_cases. eauto.
      * intros j y Hy. by eapply Holds_lookup.
      * intros j Hj. unfold c1. simpl.
        rewrite list_lookup_insert_ne by lia. apply lookup_replicate_2. lia.
  - unfold EmplaceBack, EmplaceBack_body.
    pose proof Hspare as Hspare'. apply Nat.eqb_neq in Hspare'.
    rewrite Hspare'. unfold Capacity in *.
    destruct (tick w) as [[] w1]; [by intros; simplify_eq|].
    destruct (construct_at (cells (data_ v)) (size_ v) x w1) as [c1 w2] eqn:H1.
    apply construct_at_cells in H1; [|lia]. subst c1.
    intros; simplify_eq. simpl. split; [lia|].
    apply Holds_snoc; [by rewrite length_insert|done|..].
    + by rewrite take_insert_ge.
    + apply list_lookup_insert_eq. lia.
Qed.

Lemma EmplaceBack_calm x v w :
  size_ v ≤ Capacity v → calm w →
  ∃ v' w', EmplaceBack x v w = (Ret (size_ v), v', w') ∧ calm w' ∧
           size_ v' ≤ Capacity v'.
Proof.
  intros Hv Hw.
  destruct (decide (size_ v = Capacity v)) as [Hfull|Hspare].
  - rewrite <- Emplace_at_end.
    destruct (Emplace_full_calm (size_ v) x v w Hfull (le_n _) Hw)
      as (v' & w' & HE & Hw').
    exists v', w'. split; [done|]. split; [done|].
    apply Emplace_full_outcome in HE as (_ & Hc & Hs); [|done]. lia.
  - unfold EmplaceBack, EmplaceBack_body.
    pose proof Hspare as Hspare'. apply Nat.eqb_neq in Hspare'.
    rewrite Hspare'. rewrite tick_calm by done.
    destruct (construct_at (cells (data_ v)) (size_ v) x w) as [c1 w1] eqn:H1.
    eexists _, _. simpl. rewrite Nat.sub_0_r. split; [done|]. split.
    + unfold calm. by rewrite (construct_at_faults _ _ _ _ _ _ H1).
    + unfold Capacity in *. simpl. lia.
Qed.

Lemma push_all_Holds xs : ∀ v acc w v' w',
  Holds v acc →
  push_all xs v w = (Ret tt, v', w') →
  Holds v' (acc ++ xs).
Proof.
  induction xs as [|x xs IH]; simpl; intros v acc w v' w' Hv H.
  { simplify_eq. by rewrite app_nil_r. }
  unfold PushBack in H.
  destruct (EmplaceBack x v w) as [[[i| |] v1] w1] eqn:HE; simpl in H;
    [|done..].
  apply EmplaceBack_Holds with (xs := acc) in HE as [_ Hv1]; [|done].
  apply IH with (acc := acc ++ [x]) in H; [|done].
  by rewrite <- app_assoc in H.
Qed.

Lemma push_all_calm xs : ∀ v w,
  size_ v ≤ Capacity v → calm w →
  ∃ v' w', push_all xs v w = (Ret tt, v', w').
Proof.
  induction xs as [|x xs IH]; simpl; intros v w Hv Hw; [by eauto|].
  destruct (EmplaceBack_calm x v w Hv Hw) as (v1 & w1 & HE & Hw1 & Hv1).
  unfold PushBack. rewrite HE. simpl. by apply IH.
Qed.

(** C9.  Push the values [xs] one after the other into an empty vector (a
    default-constructed one, or any vector that holds no element, whatever
    its capacity).  Whenever all the calls return, walking the vector from
    [begin()] to [end()] meets exactly the objects holding [xs], in the order
    they were pushed, and the size is the number of pushes; this under either
    transfer strategy and across every growth on the way.  With no failure
    scheduled all the calls do return. *)
Theorem push_back_order (v : Vector) (xs : list T) (w : world) :
  Holds v [] →
  (∀ v' w', push_all xs v w = (Ret tt, v', w') →
     contents v' = Obj <$> xs ∧ size_ v' = length xs) ∧
  (calm w → ∃ v' w', push_all xs v w = (Ret tt, v', w')).
Proof.
  intros Hv. split.
  - intros v' w' H.
    by apply push_all_Holds with (acc := []) in H as (_ & Hs & Hc).
  - intros Hw. apply push_all_calm; [|done]. by eapply Holds_size_le.
Qed.

(** ** Copy assignment that has to grow *)

Lemma Vector_copy_throws other xs w o w' :
  Holds other xs → Vector_copy other w = (o, w') →
  match o with
  | Ret v => Holds v xs ∧ Capacity v = size_ other
  | Throw => log w' = log w
  | AssertFail => False
  end.
Proof.
  intros Ho. pose proof (Holds_size_le _ _ Ho) as Hle.
  pose proof Ho as (Hlen & Hsize & Hc). unfold Vector_copy.
  destruct (RawMemory_new (size_ other) w) as [[data|] w1] eqn:Hnew.
  2: { intros; simplify_eq. by eapply RawMemory_new_None. }
  apply RawMemory_new_Some in Hnew as (Hcap & Hcells & Hlog & _).
  rewrite Hsize in *.
  destruct (uninitialized_copy_n (cells (data_ other)) 0 (length xs)
              (cells data) 0 w1) as [[ok c2] w2] eqn:H2.
  apply uninitialized_copy_n_spec in H2 as (Hl2 & _ & Hd2).
  - destruct ok; intros; simplify_eq.
    + simpl. split; [|done].
      apply Holds_transferred; [done|..]; rewrite Hcells, length_replicate; lia.
    + unfold RawMemory_dtor. simpl. rewrite Hcells, Deallocate_raw. congruence.
  - intros i x Hx. by eapply Holds_lookup.
  - intros i Hi. rewrite Hcells. apply lookup_replicate_2. simpl. lia.
Qed.

(** Copy assignment from a larger vector builds the copy first: when that
    throws, the target, the log and so the objects of the abandoned block are
    as they were. *)
Lemma Vector_copy_assign_strong rhs xs v w v' w' :
  Holds rhs xs → Capacity v < size_ rhs →
  Vector_copy_assign rhs v w = (Throw, v', w') →
  v' = v ∧ log w' = log w.
Proof.
  intros Hr Hgrow. unfold Vector_copy_assign.
  apply Nat.ltb_lt in Hgrow. rewrite Hgrow.
  destruct (Vector_copy rhs w) as [[rhs_copy| |] w1] eqn:Hcopy.
  - unfold Swap, RawMemory_Swap. simpl. by intros; simplify_eq.
  - apply (Vector_copy_throws _ _ _ _ _ Hr) in Hcopy.
    by intros; simplify_eq.
  - by apply (Vector_copy_throws _ _ _ _ _ Hr) in Hcopy.
Qed.

(** ** Erase *)

Lemma Inv_cells v xs :
  Inv v xs →
  cells (data_ v) = (Obj <$> xs) ++ replicate (capacity_ (data_ v) - size_ v) Raw.
Proof.
  intros [(_ & _ & Hc) Hraw]. unfold contents in Hc.
  by rewrite <- Hc, <- Hraw, take_drop.
Qed.

Lemma insert_middle {A} (l1 l2 : list A) x y :
  <[length l1 := y]> (l1 ++ x :: l2) = l1 ++ y :: l2.
Proof. induction l1; simpl; by f_equal. Qed.

(** Shifting the elements after a position one slot to the left: they land in
    order, and the slot the last of them left still holds an object. *)
Lemma move_range_shift ys : ∀ pre x0 rest w,
  ∃ z, move_range (pre ++ Obj x0 :: (Obj <$> ys) ++ rest)
         (S (length pre)) (length ys) (length pre) w =
       (pre ++ (Obj <$> ys) ++ Obj z :: rest, w).
Proof.
  induction ys as [|y ys IH]; simpl; intros pre x0 rest w; [by eauto|].
  unfold move_assign_within.
  rewrite (list_lookup_middle _ _ (Obj x0) (length pre)) by done.
  rewrite (cons_middle (Obj x0)), app_assoc.
  rewrite (list_lookup_middle _ _ (Obj y) (S (length pre)))
    by (rewrite length_app; simpl; lia).
  rewrite <- app_assoc. simpl.
  rewrite insert_middle.
  rewrite (cons_middle (Obj y)), app_assoc.
  replace (S (length pre)) with (length (pre ++ [Obj y]))
    by (rewrite length_app; simpl; lia).
  rewrite insert_middle.
  destruct (IH (pre ++ [Obj y]) (moved_from y) rest w) as [z Hz].
  exists z. etrans; [exact Hz|]. by rewrite <- app_assoc.
Qed.

(** C1, what the code does.  On a vector that satisfies the representation
    invariant, [Erase(pos)] at a valid position returns [pos], decreases the
    size by one and leaves the remaining elements in order.  But its one
    [destroy_at] goes to the slot at the old index [size_], which is at the
    logical end (a raw slot, or one past the block when the vector is full),
    and the vacated slot at the old index [size_ - 1] is left holding an
    object that is never destroyed. *)
Theorem Erase_destroys_past_the_end (v : Vector) (xs : list T) (pos : nat)
    (w : world) :
  Inv v xs → pos < size_ v →
  ∃ v' w' y,
    Erase pos v w = (Ret pos, v', w') ∧
    size_ v' = size_ v - 1 ∧
    contents v' = Obj <$> delete pos xs ∧
    cells (data_ v') !! (size_ v - 1) = Some (Obj y) ∧
    log w' = (if size_ v <? Capacity v then DestroyNoObject (size_ v)
              else OutOfBlock (size_ v)) :: log w.
Proof.
  intros HI Hpos. pose proof (Inv_cells _ _ HI) as Hcells.
  destruct HI as [Hv _]. pose proof (Holds_size_le _ _ Hv) as Hle.
  destruct Hv as (Hlen & Hsize & _).
  destruct (lookup_lt_is_Some_2 xs pos) as [x0 Hx0]; [lia|].
  set (pre := Obj <$> take pos xs). set (ys := drop (S pos) xs).
  set (rest := replicate (capacity_ (data_ v) - size_ v) Raw).
  assert (length pre = pos) as Hpre
    by (unfold pre; rewrite length_fmap, length_take; lia).
  assert (length ys = size_ v - (pos + 1)) as Hys
    by (unfold ys; rewrite length_drop; lia).
  assert (cells (data_ v) = pre ++ Obj x0 :: (Obj <$> ys) ++ rest) as Hc.
  { rewrite Hcells. fold rest. rewrite <- (take_drop_middle xs pos x0) at 1
      by done. rewrite fmap_app, fmap_cons, <- app_assoc. done. }
  destruct (move_range_shift ys pre x0 rest w) as [z Hz].
  rewrite Hpre, Hys in Hz.
  unfold Erase. apply Nat.ltb_lt in Hpos. rewrite Hpos. simpl.
  apply Nat.ltb_lt in Hpos.
  rewrite Hc. replace (pos + 1) with (S pos) in * by lia. rewrite Hz.
  set (c := pre ++ (Obj <$> ys) ++ Obj z :: rest).
  assert (c !! size_ v = rest !! 0) as Hend.
  { unfold c. rewrite lookup_app_r by lia.
    rewrite lookup_app_r by (rewrite length_fmap; lia).
    rewrite length_fmap, Hpre, Hys.
    by replace (size_ v - pos - (size_ v - S pos)) with 1 by lia. }
  assert (c !! (size_ v - 1) = Some (Obj z)) as Hlast.
  { unfold c. rewrite lookup_app_r by lia.
    rewrite lookup_app_r by (rewrite length_fmap; lia).
    rewrite length_fmap, Hpre, Hys.
    by replace (size_ v - 1 - pos - (size_ v - S pos)) with 0 by lia. }
  assert (take (size_ v - 1) c = Obj <$> delete pos xs) as Htake.
  { unfold c. rewrite app_assoc, take_app_length'.
    - by rewrite delete_take_drop, fmap_app.
    - rewrite length_app, length_fmap. lia. }
  unfold destroy_at. rewrite Hend. unfold rest, Capacity.
  destruct (size_ v <? capacity_ (data_ v)) eqn:Hspare.
  - apply Nat.ltb_lt in Hspare.
    rewrite lookup_replicate_2 by lia.
    eexists _, _, z. split; [done|]. simpl. unfold contents. simpl.
    by rewrite Hlast, Htake.
  - apply Nat.ltb_ge in Hspare.
    replace (capacity_ (data_ v) - size_ v) with 0 by lia. simpl.
    eexists _, _, z. split; [done|]. simpl. unfold contents. simpl.
    by rewrite Hlast, Htake.
Qed.

(** ** Emplace with growth under the copy-based transfer *)

Lemma construct_at_other c i x w c' w' j :
  construct_at c i x w = (c', w') → j ≠ i → c' !! j = c !! j.
Proof.
  unfold construct_at. intros H Hj.
  repeat case_match; simplify_eq; by rewrite ?list_lookup_insert_ne.
Qed.

Lemma destroy_at_other c i w c' w' j :
  destroy_at c i w = (c', w') → j ≠ i → c' !! j = c !! j.
Proof.
  unfold destroy_at. intros H Hj.
  repeat case_match; simplify_eq; by rewrite ?list_lookup_insert_ne.
Qed.

(** [uninitialized_copy_n] writes to the [n] slots from [d_first] on, and to
    no other. *)
Lemma uninitialized_copy_n_outside n : ∀ src first dst d w ok dst' w' j,
  uninitialized_copy_n src first n dst d w = (ok, dst', w') →
  j < d ∨ d + n ≤ j → dst' !! j = dst !! j.
Proof.
  induction n as [|n IH]; simpl; intros src first dst d w ok dst' w' j H Hj;
    [by simplify_eq|].
  destruct (src !! first) as [[|x]|].
  - eapply IH; [done|lia].
  - destruct (tick w) as [[] w1]; [by simplify_eq|].
    destruct (construct_at dst d x w1) as [d1 w2] eqn:H1.
    destruct (uninitialized_copy_n src (S first) n d1 (S d) w2)
      as [[ok2 d2] w3] eqn:H2.
    assert (d2 !! j = dst !! j) as Hd2.
    { rewrite (IH _ _ _ _ _ _ _ _ j H2) by lia.
      eapply construct_at_other; [done|lia]. }
    destruct ok2; [by simplify_eq|].
    destruct (destroy_at d2 d w3) as [d3 w4] eqn:H3. simplify_eq.
    rewrite <- Hd2. eapply destroy_at_other; [done|lia].
  - eapply IH; [done|lia].
Qed.

(** C2, what the code does.  Under the copy-based transfer, an [Emplace]
    before [end()] that has to grow copies the elements from [pos] on to the
    front of the new block (the destination of the second
    [uninitialized_copy_n] is [new_data.GetAddress()], where the move-based
    branch has [new_data.GetAddress() + dist + 1]).  Nothing is ever
    constructed in the last slot of the grown vector: the size becomes
    [size_ + 1] and the slot at index [size_] is raw memory. *)
Theorem Emplace_copy_growth_last_slot_raw (v : Vector) (w : world)
    (pos : nat) (x : T) (i : nat) (v' : Vector) (w' : world) :
  nothrow_move_or_not_copyable = false →
  size_ v = Capacity v → pos < size_ v →
  Emplace pos x v w = (Ret i, v', w') →
  size_ v' = S (size_ v) ∧ contents v' !! size_ v = Some Raw.
Proof.
  intros Hcopy Hfull Hpos. unfold Emplace, Emplace_body. rewrite Hcopy.
  assert ((pos <=? size_ v) = true) as -> by (apply Nat.leb_le; lia). simpl.
  apply Nat.eqb_eq in Hfull. rewrite Hfull.
  assert ((0 <? size_ v) = true) as -> by (apply Nat.ltb_lt; lia).
  destruct (RawMemory_new (size_ v * 2) w) as [[new_data|] w1] eqn:Hnew;
    [|by intros; simplify_eq].
  apply RawMemory_new_Some in Hnew as (Hcap & Hcells & _).
  destruct (tick w1) as [[] w2]; [by intros; simplify_eq|].
  destruct (construct_at (cells new_data) pos x w2) as [c1 w3] eqn:H1.
  destruct (uninitialized_copy_n (cells (data_ v)) 0 pos c1 0 w3)
    as [[ok2 c2] w4] eqn:H2.
  destruct ok2; [|by intros; simplify_eq].
  destruct (uninitialized_copy_n (cells (data_ v)) pos (size_ v - pos) c2 0 w4)
    as [[ok3 c3] w5] eqn:H3.
  destruct ok3; [|by intros; simplify_eq].
  unfold RawMemory_Swap. simpl.
  destruct (DestroyN (cells (data_ v)) 0 (size_ v) w5) as [c6 w6].
  intros; simplify_eq. split; [done|]. unfold contents. simpl.
  rewrite lookup_take_lt by lia.
  rewrite (uninitialized_copy_n_outside _ _ _ _ _ _ _ _ _ _ H3) by lia.
  rewrite (uninitialized_copy_n_outside _ _ _ _ _ _ _ _ _ _ H2) by lia.
  rewrite (construct_at_other _ _ _ _ _ _ _ H1) by lia.
  rewrite Hcells. apply lookup_replicate_2. lia.
Qed.

Lemma Deallocate_one n i x w :
  i < n → Deallocate (<[i := Obj x]> (replicate n Raw)) w = note (Leak x) w.
Proof.
  intros Hi. rewrite insert_replicate_lt by done.
  unfold Deallocate. rewrite foldl_app. simpl.
  fold (Deallocate (replicate i Raw) w). rewrite Deallocate_raw.
  fold (Deallocate (replicate (n - S i) Raw) (note (Leak x) w)).
  by rewrite Deallocate_raw.
Qed.

Lemma uninitialized_copy_n_throws_at_once src first n dst d w x fs :
  src !! first = Some (Obj x) → faults w = true :: fs →
  uninitialized_copy_n src first (S n) dst d w =
    (false, dst, World (next_addr w) fs (log w)).
Proof. intros Hx Hw. simpl. unfold tick. by rewrite Hx, Hw. Qed.

(** C4, what the code does.  Take a non-empty full vector under the
    copy-based transfer and an insertion whose allocation and whose
    construction of the new element succeed, while the first copy of an old
    element throws.  [Emplace] throws and the vector is exactly as before;
    but the new element, already constructed in the new block, is never
    destroyed: the block is released with the object alive. *)
Theorem Emplace_growth_copy_throw_leaks (v : Vector) (xs : list T)
    (w : world) (pos : nat) (x : T) (fs : list bool) :
  nothrow_move_or_not_copyable = false →
  Holds v xs → size_ v = Capacity v → 0 < size_ v → pos ≤ size_ v →
  faults w = false :: false :: true :: fs →
  ∃ w', Emplace pos x v w = (Throw, v, w') ∧ log w' = Leak x :: log w.
Proof.
  intros Hcopy Hv Hfull Hne Hpos Hw.
  destruct (lookup_lt_is_Some_2 xs 0) as [x0 Hx0];
    [destruct Hv as (_ & <- & _); lia|].
  pose proof (Holds_lookup _ _ _ _ Hv Hx0) as Hc0. simpl in Hc0.
  unfold Emplace, Emplace_body. rewrite Hcopy.
  assert ((pos <=? size_ v) = true) as -> by (apply Nat.leb_le; lia). simpl.
  apply Nat.eqb_eq in Hfull. rewrite Hfull.
  assert ((0 <? size_ v) = true) as -> by (by apply Nat.ltb_lt).
  unfold RawMemory_new, Allocate.
  assert ((size_ v * 2 =? 0) = false) as -> by (apply Nat.eqb_neq; lia).
  unfold tick at 1. rewrite Hw. simpl.
  rewrite construct_at_raw by (apply lookup_replicate_2; lia).
  set (w3 := World (S (next_addr w)) (true :: fs) (log w)).
  set (c1 := <[pos:=Obj x]> (replicate (size_ v * 2) Raw)).
  assert (∃ w4, (let '(ok, new, w0) :=
              uninitialized_copy_n (cells (data_ v)) 0 pos c1 0 w3 in
            if ok
            then let '(ok0, new0, w5) :=
                   uninitialized_copy_n (cells (data_ v)) pos (size_ v - pos)
                     new 0 w0 in
                 (ok0, cells (data_ v), new0, w5)
            else (false, cells (data_ v), new, w0)) =
            (false, cells (data_ v), c1, w4) ∧ log w4 = log w) as (w4 & -> & Hl).
  { destruct pos as [|p].
    - simpl. rewrite Nat.sub_0_r. destruct (size_ v) as [|n] eqn:Hs; [lia|].
      rewrite (uninitialized_copy_n_throws_at_once _ _ _ _ _ _ x0 fs) by done.
      by eexists.
    - rewrite (uninitialized_copy_n_throws_at_once _ _ _ _ _ _ x0 fs) by done.
      by eexists. }
  eexists. split; [done|]. unfold RawMemory_dtor. simpl.
  unfold c1. rewrite Deallocate_one by lia. simpl. by rewrite Hl.
Qed.

(** ** Emplace where it does insert

    The defect of the copy branch apart ([Emplace_copy_growth_last_slot_raw]),
    [Emplace] inserts: under the move-based transfer, with spare capacity, and
    at [end()]. *)

Lemma move_construct_src_other src i dst d w src' dst' w' j :
  move_construct src i dst d w = (src', dst', w') → j ≠ i →
  src' !! j = src !! j.
Proof.
  unfold move_construct. intros H Hj.
  repeat case_match; simplify_eq; by rewrite ?list_lookup_insert_ne.
Qed.

(** [uninitialized_move_n] reads (and leaves moved-from) the [n] slots from
    [first] on, and no other. *)
Lemma uninitialized_move_n_src_outside n : ∀ src first dst d w src' dst' w' j,
  uninitialized_move_n src first n dst d w = (src', dst', w') →
  j < first ∨ first + n ≤ j → src' !! j = src !! j.
Proof.
  induction n as [|n IH]; simpl; intros src first dst d w src' dst' w' j H Hj;
    [by simplify_eq|].
  destruct (move_construct src first dst d w) as [[s1 d1] w1] eqn:H1.
  rewrite (IH _ _ _ _ _ _ _ _ j H) by lia.
  eapply move_construct_src_other; [done|lia].
Qed.

Lemma Holds_prefix b cap c zs n :
  length c = cap → n = length zs → take n c = Obj <$> zs →
  Holds (mkVector (mkRawMemory b cap c) n) zs.
Proof. by intros ? -> ?. Qed.

Lemma Emplace_grow_move_Holds pos x v xs w i v' w' :
  nothrow_move_or_not_copyable = true →
  Holds v xs → size_ v = Capacity v → pos ≤ size_ v →
  Emplace pos x v w = (Ret i, v', w') →
  i = pos ∧ Holds v' (take pos xs ++ x :: drop pos xs).
Proof.
  intros Hmove Hv Hfull Hpos.
  pose proof Hv as (Hlen & Hsize & Hc).
  unfold Emplace, Emplace_body. rewrite Hmove.
  assert ((pos <=? size_ v) = true) as -> by (by apply Nat.leb_le). simpl.
  apply Nat.eqb_eq in Hfull. rewrite Hfull.
  set (N := if 0 <? size_ v then size_ v * 2 else 1).
  assert (size_ v < N) as HN
    by (unfold N; destruct (0 <? size_ v) eqn:E;
        [apply Nat.ltb_lt in E|apply Nat.ltb_ge in E]; lia).
  destruct (RawMemory_new N w) as [[new_data|] w1] eqn:Hnew;
    [|by intros; simplify_eq].
  apply RawMemory_new_Some in Hnew as (Hcap & Hcells & _).
  destruct (tick w1) as [[] w2]; [by intros; simplify_eq|].
  rewrite Hcells. rewrite construct_at_raw by (apply lookup_replicate_2; lia).
  set (c1 := <[pos := Obj x]> (replicate N Raw)).
  assert (length c1 = N) as Hc1
    by (unfold c1; by rewrite length_insert, length_replicate).
  assert (c1 !! pos = Some (Obj x)) as Hc1x
    by (unfold c1; apply list_lookup_insert_eq; rewrite length_replicate; lia).
  assert (length (take pos xs) = pos) as Hl1 by (rewrite length_take; lia).
  assert (length (drop pos xs) = size_ v - pos) as Hl2
    by (rewrite length_drop; lia).
  destruct (uninitialized_move_n (cells (data_ v)) 0 pos c1 0 w2)
    as [[o2 c2] w3] eqn:H2.
  destruct (uninitialized_move_n o2 pos (size_ v - pos) c2 (pos + 1) w3)
    as [[o3 c3] w4] eqn:H3.
  pose proof H2 as H2src.
  rewrite <- Hl1 in H2 at 1. apply uninitialized_move_n_dst in H2.
  2: { intros j y Hy. apply lookup_take_Some in Hy as [Hy _].
       by eapply Holds_lookup. }
  2: { rewrite Hl1. lia. }
  rewrite Hl1 in H2. simpl in H2.
  assert (length c2 = N) as Hc2.
  { rewrite H2, length_app, length_fmap, length_drop. lia. }
  rewrite <- Hl2 in H3. apply uninitialized_move_n_dst in H3.
  2: { intros j y Hy. rewrite lookup_drop in Hy.
       rewrite (uninitialized_move_n_src_outside _ _ _ _ _ _ _ _ _ _ H2src)
         by lia.
       by apply (Holds_lookup _ _ _ _ Hv Hy). }
  2: { rewrite Hl2. lia. }
  rewrite Hl2 in H3.
  assert (take (pos + 1) c2 = (Obj <$> take pos xs) ++ [Obj x]) as Hfront.
  { rewrite H2, take_app, length_fmap, Hl1.
    rewrite take_ge by (rewrite length_fmap; lia).
    replace (pos + 1 - pos) with 1 by lia.
    by rewrite (drop_S _ (Obj x)). }
  assert (Holds (mkVector (mkRawMemory (buffer_ new_data)
                   (capacity_ new_data) c3) (S (size_ v)))
            (take pos xs ++ x :: drop pos xs)) as Hres.
  { apply Holds_prefix.
    - rewrite H3, Hfront, !length_app, !length_fmap, !length_drop, Hc2.
      simpl. lia.
    - rewrite length_app. simpl. lia.
    - rewrite H3, Hfront, app_assoc, take_app_length'.
      + by rewrite fmap_app, fmap_cons, <- app_assoc.
      + rewrite !length_app, !length_fmap. simpl. lia. }
  unfold RawMemory_Swap. simpl. intros H. by_cases. by split.
Qed.

Lemma lookup_second {A} (l r : list A) a b :
  (l ++ a :: b :: r) !! S (length l) = Some b.
Proof.
  rewrite (cons_middle a), app_assoc.
  apply list_lookup_middle. rewrite length_app. simpl. lia.
Qed.

Lemma insert_second {A} (l r : list A) a b y :
  <[S (length l) := y]> (l ++ a :: b :: r) = l ++ a :: y :: r.
Proof.
  rewrite (cons_middle a), app_assoc.
  replace (S (length l)) with (length (l ++ [a]))
    by (rewrite length_app; simpl; lia).
  by rewrite insert_middle, <- app_assoc.
Qed.

(** [c[i+1] = std::move(c[i])] on two neighbouring objects. *)
Lemma move_assign_within_right l a b r w :
  move_assign_within (l ++ Obj a :: Obj b :: r) (length l) (S (length l)) w =
    (l ++ Obj (moved_from a) :: Obj a :: r, w).
Proof.
  unfold move_assign_within.
  rewrite (list_lookup_middle _ _ (Obj a) (length l)) by done.
  rewrite lookup_second, insert_second. by rewrite insert_middle.
Qed.

(** Shifting a run of elements one slot to the right, from the back: they
    land in order, and the slot the first of them left still holds an
    object. *)
Lemma move_backward_shift ys : ∀ pre z rest w,
  ∃ z', move_backward (pre ++ (Obj <$> ys) ++ Obj z :: rest)
          (length pre) (length ys) (S (length pre + length ys)) w =
        (pre ++ Obj z' :: (Obj <$> ys) ++ rest, w).
Proof.
  induction ys as [|y ys IH] using rev_ind; intros pre z rest w.
  { simpl. by eauto. }
  rewrite length_app, Nat.add_1_r. cbn [move_backward].
  rewrite fmap_app, <- app_assoc. simpl.
  rewrite (app_assoc pre).
  replace (length pre + length ys)
    with (length (pre ++ (Obj <$> ys)))
    by (by rewrite length_app, length_fmap).
  replace (length pre + S (length ys) - 0)
    with (S (length (pre ++ (Obj <$> ys))))
    by (rewrite length_app, length_fmap; lia).
  rewrite move_assign_within_right.
  rewrite <- app_assoc.
  destruct (IH pre (moved_from y) (Obj y :: rest) w) as [z' Hz].
  rewrite length_app, length_fmap. rewrite Hz.
  exists z'. by rewrite <- !app_assoc.
Qed.

(** The three steps of the insertion before [end()] into spare capacity. *)
Lemma shift_and_assign pre ys y s rest x w :
  ∃ c1 w1 c2,
    move_construct_within (pre ++ (Obj <$> ys) ++ Obj y :: s :: rest)
      (length pre + length ys) (S (length pre + length ys)) w = (c1, w1) ∧
    move_backward c1 (length pre) (length ys)
      (S (length pre + length ys)) w1 = (c2, w1) ∧
    assign_value c2 (length pre) x w1 =
      (pre ++ Obj x :: (Obj <$> ys) ++ Obj y :: rest, w1).
Proof.
  set (l := pre ++ (Obj <$> ys)).
  assert (length l = length pre + length ys) as Hl
    by (unfold l; by rewrite length_app, length_fmap).
  unfold move_construct_within. rewrite app_assoc. fold l. rewrite <- Hl.
  rewrite (list_lookup_middle _ _ (Obj y) (length l)) by done.
  destruct (construct_at (l ++ Obj y :: s :: rest) (S (length l)) y w)
    as [c0 w1] eqn:H0.
  apply construct_at_cells in H0; [|rewrite length_app; simpl; lia].
  rewrite insert_second in H0. subst c0. rewrite insert_middle.
  destruct (move_backward_shift ys pre (moved_from y) (Obj y :: rest) w1)
    as [z' Hz].
  eexists _, w1, _. split; [done|]. split.
  - rewrite Hl. unfold l. rewrite <- app_assoc. exact Hz.
  - unfold assign_value.
    rewrite (list_lookup_middle _ _ (Obj z') (length pre)) by done.
    by rewrite insert_middle.
Qed.

Lemma Emplace_spare_mid_Holds pos x v xs w i v' w' :
  Holds v xs → size_ v ≠ Capacity v → pos < size_ v →
  Emplace pos x v w = (Ret i, v', w') →
  i = pos ∧ Holds v' (take pos xs ++ x :: drop pos xs).
Proof.
  intros Hv Hspare Hpos. pose proof (Holds_size_le _ _ Hv) as Hle.
  pose proof Hv as (Hlen & Hsize & Hc). unfold contents in Hc.
  unfold Capacity in *.
  (* the block, cut at the position, the last element and the end *)
  destruct (drop pos xs) as [|y0 ys0] eqn:Hdrop using rev_ind.
  { apply (f_equal length) in Hdrop. rewrite length_drop in Hdrop.
    simpl in Hdrop. lia. }
  clear IHys0. rename y0 into y, ys0 into ys.
  assert (length ys = size_ v - 1 - pos) as Hys.
  { apply (f_equal length) in Hdrop.
    rewrite length_drop, length_app in Hdrop. simpl in Hdrop. lia. }
  destruct (drop (size_ v) (cells (data_ v))) as [|s rest] eqn:Htail.
  { apply (f_equal length) in Htail. rewrite length_drop in Htail.
    simpl in Htail. lia. }
  set (pre := Obj <$> take pos xs).
  assert (length pre = pos) as Hpre
    by (unfold pre; rewrite length_fmap, length_take; lia).
  assert (cells (data_ v) = pre ++ (Obj <$> ys) ++ Obj y :: s :: rest) as Hcells.
  { rewrite <- (take_drop (size_ v) (cells (data_ v))), Hc, Htail.
    rewrite <- (take_drop pos xs) at 1. rewrite Hdrop.
    by rewrite !fmap_app, <- !app_assoc. }
  destruct (shift_and_assign pre ys y s rest x) with (w := (tick w).2)
    as (c1 & w1 & c2 & H1 & H2 & H3).
  rewrite Hpre in H1, H2, H3.
  replace (pos + length ys) with (size_ v - 1) in H1, H2 by lia.
  replace (S (size_ v - 1)) with (size_ v) in H1, H2 by lia.
  rewrite Hys in H2.
  unfold Emplace, Emplace_body, Capacity.
  assert ((pos <=? size_ v) = true) as -> by (apply Nat.leb_le; lia). simpl.
  assert ((size_ v =? capacity_ (data_ v)) = false) as ->
    by (by apply Nat.eqb_neq).
  assert ((size_ v =? pos) = false) as -> by (apply Nat.eqb_neq; lia).
  destruct (tick w) as [[] w0]; [by intros; simplify_eq|]. simpl in *.
  unfold RawMemory_at.
  assert ((size_ v - 1 <? capacity_ (data_ v)) = true) as ->
    by (apply Nat.ltb_lt; lia).
  assert ((pos <? capacity_ (data_ v)) = true) as ->
    by (apply Nat.ltb_lt; lia).
  rewrite Hcells, H1, H2, H3. intros; simplify_eq. split; [done|].
  apply Holds_prefix.
  - rewrite <- Hlen, Hcells, !length_app. simpl. rewrite !length_app. simpl.
    lia.
  - rewrite length_app, length_take. simpl. rewrite length_app. simpl. lia.
  - replace (pre ++ Obj x :: (Obj <$> ys) ++ Obj y :: rest)
      with ((Obj <$> take pos xs ++ x :: ys ++ [y]) ++ rest)
      by (rewrite !fmap_app, fmap_cons, !fmap_app, <- !app_assoc; simpl;
          by rewrite <- !app_assoc).
    apply take_app_length'. rewrite length_fmap, !length_app. simpl.
    rewrite length_app, length_take. simpl. lia.
Qed.

(** The insertion does what its contract says wherever the defective branch
    is not taken: the result is the old prefix, the new element, the old
    suffix; the size grows by one; the iterator returned is [pos]. *)
Lemma Emplace_inserts pos x v xs w i v' w' :
  Holds v xs → pos ≤ size_ v →
  nothrow_move_or_not_copyable = true ∨ size_ v ≠ Capacity v ∨
    pos = size_ v →
  Emplace pos x v w = (Ret i, v', w') →
  i = pos ∧ size_ v' = S (size_ v) ∧
  Holds v' (take pos xs ++ x :: drop pos xs).
Proof.
  intros Hv Hpos Hbranch H.
  assert (i = pos ∧ Holds v' (take pos xs ++ x :: drop pos xs)) as [-> Hv'].
  { destruct (decide (pos = size_ v)) as [->|Hmid].
    - rewrite Emplace_at_end in H.
      apply (EmplaceBack_Holds _ _ _ _ _ _ _ Hv) in H as [-> Hv'].
      destruct Hv as (_ & Hs & _).
      split; [done|]. by rewrite Hs, take_ge, drop_ge.
    - destruct (decide (size_ v = Capacity v)) as [Hfull|Hspare].
      + destruct Hbranch as [Hmove|[?|?]]; [|done..].
        by eapply Emplace_grow_move_Holds.
      + eapply Emplace_spare_mid_Holds; [done..|lia|done]. }
  split; [done|]. split; [|done].
  destruct Hv as (_ & Hs & _), Hv' as (_ & Hs' & _).
  rewrite Hs', Hs, length_app. simpl. rewrite length_take, length_drop. lia.
Qed.

(** * Further properties of the code *)

(** ** The algorithms on blocks cut into their parts *)

Lemma Deallocate_app c1 c2 w :
  Deallocate (c1 ++ c2) w = Deallocate c2 (Deallocate c1 w).
Proof. unfold Deallocate. by rewrite foldl_app. Qed.


(** [destroy_n] over a run of live objects leaves the run raw and logs
    nothing. *)
Lemma destroy_n_objs ys : ∀ pre rest w,
  destroy_n (pre ++ (Obj <$> ys) ++ rest) (length pre) (length ys) w =
    (pre ++ replicate (length ys) Raw ++ rest, w).
Proof.
  induction ys as [|y ys IH]; intros pre rest w; [done|].
  cbn [length destroy_n fmap list_fmap app replicate]. unfold destroy_at.
  rewrite (list_lookup_middle _ _ (Obj y) (length pre)) by done.
  rewrite insert_middle.
  rewrite (cons_middle Raw pre), app_assoc.
  replace (S (length pre)) with (length (pre ++ [Raw]))
    by (rewrite length_app; simpl; lia).
  etrans; [apply IH|]. by rewrite <- app_assoc.
Qed.

(** The move-based transfer of a run of live objects into raw slots: the
    objects arrive in order, the sources stay alive in their moved-from
    state, nothing is logged. *)
Lemma uninitialized_move_n_parts xs : ∀ spre srest dpre drest w,
  uninitialized_move_n (spre ++ (Obj <$> xs) ++ srest) (length spre)
    (length xs) (dpre ++ replicate (length xs) Raw ++ drest) (length dpre) w =
    (spre ++ (Obj <$> (moved_from <$> xs)) ++ srest,
     dpre ++ (Obj <$> xs) ++ drest, w).
Proof.
  induction xs as [|x xs IH]; intros spre srest dpre drest w; [done|].
  cbn [length uninitialized_move_n fmap list_fmap app replicate].
  unfold move_construct.
  rewrite (list_lookup_middle _ _ (Obj x) (length spre)) by done.
  rewrite construct_at_raw by (by apply list_lookup_middle).
  rewrite !insert_middle.
  rewrite (cons_middle (Obj (moved_from x)) spre), app_assoc.
  rewrite (cons_middle (Obj x) dpre), (app_assoc dpre).
  replace (S (length spre)) with (length (spre ++ [Obj (moved_from x)]))
    by (rewrite length_app; simpl; lia).
  replace (S (length dpre)) with (length (dpre ++ [Obj x]))
    by (rewrite length_app; simpl; lia).
  etrans; [apply IH|]. by rewrite <- !app_assoc.
Qed.

(** The copy-based transfer, on the same cut. *)
Lemma uninitialized_copy_n_parts xs spre srest dpre drest w ok dst' w' :
  uninitialized_copy_n (spre ++ (Obj <$> xs) ++ srest) (length spre)
    (length xs) (dpre ++ replicate (length xs) Raw ++ drest) (length dpre) w =
    (ok, dst', w') →
  log w' = log w ∧ next_addr w' = next_addr w ∧
  dst' = if ok then dpre ++ (Obj <$> xs) ++ drest
         else dpre ++ replicate (length xs) Raw ++ drest.
Proof.
  intros H. apply uninitialized_copy_n_spec in H as (Hl & Hn & Hd).
  - split; [done|]. split; [done|]. destruct ok; [|done].
    rewrite Hd, take_app_length, drop_app_add'; [|done].
    f_equal. f_equal. rewrite drop_app_length'; [done|].
    by rewrite length_replicate.
  - intros i x Hx. rewrite lookup_app_r by lia.
    replace (length spre + i - length spre) with i by lia.
    apply lookup_app_l_Some. by rewrite list_lookup_fmap, Hx.
  - intros i Hi. rewrite lookup_app_r by lia.
    replace (length dpre + i - length dpre) with i by lia.
    apply lookup_app_l_Some. by apply lookup_replicate_2.
Qed.





Lemma uninitialized_move_n_at xs spre srest dpre drest first n d w :
  first = length spre → n = length xs → d = length dpre →
  uninitialized_move_n (spre ++ (Obj <$> xs) ++ srest) first n
    (dpre ++ replicate n Raw ++ drest) d w =
    (spre ++ (Obj <$> (moved_from <$> xs)) ++ srest,
     dpre ++ (Obj <$> xs) ++ drest, w).
Proof. intros -> -> ->. apply uninitialized_move_n_parts. Qed.

Lemma destroy_n_at ys pre rest first n w :
  first = length pre → n = length ys →
  destroy_n (pre ++ (Obj <$> ys) ++ rest) first n w =
    (pre ++ replicate n Raw ++ rest, w).
Proof. intros -> ->. apply destroy_n_objs. Qed.

(** ** Vectors that satisfy the representation invariant *)

Lemma Inv_intro b cap xs k n :
  cap = length xs + k → n = length xs →
  Inv (mkVector (mkRawMemory b cap ((Obj <$> xs) ++ replicate k Raw)) n) xs.
Proof.
  intros -> ->. unfold Inv, Holds, contents. simpl.
  rewrite length_app, length_fmap, length_replicate.
  rewrite take_app_length' by (by rewrite length_fmap).
  rewrite drop_app_length' by (by rewrite length_fmap).
  repeat split; try done. f_equal. lia.
Qed.

Lemma Inv_shape v xs :
  Inv v xs →
  ∃ b k, v = mkVector (mkRawMemory b (length xs + k)
                         ((Obj <$> xs) ++ replicate k Raw)) (length xs).
Proof.
  intros HI. pose proof (Inv_cells _ _ HI) as Hc.
  destruct HI as [Hv _]. pose proof (Holds_size_le _ _ Hv) as Hle.
  destruct Hv as (_ & Hs & _).
  destruct v as [[b cap c] n]. simpl in *. subst.
  exists b, (cap - length xs). do 2 f_equal. lia.
Qed.

Lemma DestroyN_objs zs k n w :
  n = length zs →
  DestroyN ((Obj <$> zs) ++ replicate k Raw) 0 n w =
    (replicate n Raw ++ replicate k Raw, w).
Proof. intros ->. apply (destroy_n_objs zs [] (replicate k Raw) w). Qed.



(** ** Reallocation without loss *)




(** ** Insertion at the end without loss *)

Lemma insert_middle_at {A} (l1 l2 : list A) x y n :
  n = length l1 → <[n := y]> (l1 ++ x :: l2) = l1 ++ y :: l2.
Proof. intros ->. apply insert_middle. Qed.

Lemma Inv_snoc b cap xs x k n :
  cap = S (length xs + k) → n = S (length xs) →
  Inv (mkVector (mkRawMemory b cap ((Obj <$> xs) ++ Obj x :: replicate k Raw))
         n) (xs ++ [x]).
Proof.
  intros -> ->.
  replace ((Obj <$> xs) ++ Obj x :: replicate k Raw)
    with ((Obj <$> xs ++ [x]) ++ replicate k Raw)
    by (by rewrite fmap_app, <- app_assoc).
  apply Inv_intro; rewrite length_app; simpl; lia.
Qed.

Lemma EmplaceBack_Inv x v xs w i v' w' :
  Inv v xs → EmplaceBack x v w = (Ret i, v', w') →
  Inv v' (xs ++ [x]) ∧ log w' = log w.
Proof.
  intros HI. destruct (Inv_shape _ _ HI) as (b & k & ->). clear HI.
  destruct k as [|k].
  - (* full: the vector grows *)
    rewrite <- Emplace_at_end. unfold Emplace, Emplace_body, Capacity. simpl.
    rewrite Nat.leb_refl, Nat.add_0_r, Nat.eqb_refl, Nat.sub_diag. simpl.
    set (N := if 0 <? length xs then length xs * 2 else 1).
    assert (length xs < N) as HN
      by (unfold N; destruct (0 <? length xs) eqn:E;
          [apply Nat.ltb_lt in E|apply Nat.ltb_ge in E]; lia).
    destruct (RawMemory_new N w) as [[new_data|] w1] eqn:Hnew;
      [|by intros; simplify_eq].
    apply RawMemory_new_Some in Hnew as (Hcap & Hcells & Hlog & _).
    destruct (tick w1) as [[] w2] eqn:Ht; [by intros; simplify_eq|].
    apply tick_frame in Ht as [Hl2 _].
    rewrite Hcells.
    rewrite construct_at_raw by (apply lookup_replicate_2; lia).
    rewrite insert_replicate_lt by done.
    assert (Inv (mkVector (mkRawMemory (buffer_ new_data)
                   (capacity_ new_data)
                   ((Obj <$> xs) ++ Obj x :: replicate (N - S (length xs)) Raw))
                 (S (length xs))) (xs ++ [x])) as Hres
      by (apply Inv_snoc; [lia|done]).
    rewrite app_nil_r.
    destruct nothrow_move_or_not_copyable.
    + pose proof (uninitialized_move_n_parts xs [] [] []
                    (Obj x :: replicate (N - S (length xs)) Raw) w2) as Hm.
      simpl in Hm. rewrite app_nil_r in Hm. rewrite Hm. simpl.
      unfold RawMemory_Swap. simpl.
      pose proof (DestroyN_objs (moved_from <$> xs) 0 (length xs) w2) as Hd.
      simpl in Hd. rewrite Hd by (by rewrite length_fmap).
      unfold RawMemory_dtor. simpl. rewrite app_nil_r, Deallocate_raw.
      intros; simplify_eq. split; [done|congruence].
    + destruct (uninitialized_copy_n (Obj <$> xs) 0 (length xs)
                  (replicate (length xs) Raw ++
                   Obj x :: replicate (N - S (length xs)) Raw) 0 w2)
        as [[ok c2] w3] eqn:H2.
      pose proof (uninitialized_copy_n_parts xs [] [] []
                    (Obj x :: replicate (N - S (length xs)) Raw) w2 ok c2 w3)
        as Hc.
      simpl in Hc. rewrite app_nil_r in Hc.
      destruct (Hc H2) as (Hl3 & _ & Hd3).
      destruct ok; [|by intros; simplify_eq]. subst c2. simpl.
      unfold RawMemory_Swap. simpl.
      pose proof (DestroyN_objs xs 0 (length xs) w3) as Hd.
      simpl in Hd. rewrite app_nil_r in Hd. rewrite Hd by done.
      unfold RawMemory_dtor. simpl. rewrite app_nil_r, Deallocate_raw.
      intros; simplify_eq. split; [done|congruence].
  - (* spare capacity *)
    unfold EmplaceBack, EmplaceBack_body, Capacity. simpl.
    assert ((length xs =? length xs + S k) = false) as ->
      by (apply Nat.eqb_neq; lia).
    destruct (tick w) as [[] w1] eqn:Ht; [by intros; simplify_eq|].
    apply tick_frame in Ht as [Hl1 _].
    rewrite construct_at_raw
      by (apply list_lookup_middle; by rewrite length_fmap).
    rewrite insert_middle_at by (by rewrite length_fmap).
    intros; simplify_eq. split; [|done].
    apply (Inv_snoc b _ xs x k); simpl; lia.
Qed.

(** X3.  [EmplaceBack] (and so [PushBack], which only drops its result) on
    a vector that satisfies the representation invariant keeps it, appends
    the new element, hands back the slot of the new last element, and loses
    nothing: after a growth the old block is released with every object in
    it destroyed.  This holds under both transfer strategies. *)
Theorem EmplaceBack_without_loss (x : T) (v : Vector) (xs : list T)
    (w : world) (i : nat) (v' : Vector) (w' : world) :
  Inv v xs → EmplaceBack x v w = (Ret i, v', w') →
  Inv v' (xs ++ [x]) ∧ log w' = log w ∧
  i = length xs ∧ Vector_at i v' = Ret i ∧
  cells (data_ v') !! i = Some (Obj x).
Proof.
  intros HI H.
  destruct (EmplaceBack_Inv _ _ _ _ _ _ _ HI H) as [HI' Hlog].
  destruct HI as [Hv _].
  destruct (EmplaceBack_Holds _ _ _ _ _ _ _ Hv H) as [-> Hv'].
  split; [done|]. split; [done|]. split; [done|].
  pose proof (Holds_size_le _ _ Hv') as Hle.
  pose proof Hv' as (_ & Hs & _). rewrite length_app in Hs. simpl in Hs.
  split.
  - unfold Vector_at, RawMemory_at.
    assert ((length xs <? size_ v') = true) as -> by (apply Nat.ltb_lt; lia).
    by assert ((length xs <? capacity_ (data_ v')) = true) as ->
      by (apply Nat.ltb_lt; lia).
  - apply (Holds_lookup _ _ _ _ Hv'). by apply list_lookup_middle.
Qed.

Lemma push_all_Inv xs : ∀ v acc w v' w',
  Inv v acc → push_all xs v w = (Ret tt, v', w') →
  Inv v' (acc ++ xs) ∧ log w' = log w.
Proof.
  induction xs as [|x xs IH]; simpl; intros v acc w v' w' HI H.
  { simplify_eq. by rewrite app_nil_r. }
  unfold PushBack in H.
  destruct (EmplaceBack x v w) as [[[i| |] v1] w1] eqn:HE; simpl in H;
    [|done..].
  apply (EmplaceBack_Inv _ _ _ _ _ _ _ HI) in HE as [HI1 Hl1].
  apply (IH _ _ _ _ _ HI1) in H as [HI' Hl']. rewrite <- app_assoc in HI'.
  split; [done|congruence].
Qed.

(** X4.  A run of [PushBack] calls from a default-constructed vector leaves a
    vector that satisfies the representation invariant, with every slot past
    the elements raw, and a log as it was: no element is leaked or destroyed
    twice over all the reallocations on the way. *)
Theorem PushBack_run_without_loss (xs : list T) (w : world) (v' : Vector)
    (w' : world) :
  push_all xs Vector_default w = (Ret tt, v', w') →
  Inv v' xs ∧ log w' = log w.
Proof.
  intros H. apply (push_all_Inv xs Vector_default [] w v' w'); [|done].
  unfold Vector_default, RawMemory_default.
  apply (Inv_intro 0 0 [] 0 0); done.
Qed.

(** ** Resize, PopBack *)




Lemma PopBack_Inv v xs w :
  Inv v xs →
  ∃ v', PopBack v w = (Ret tt, v', w) ∧
        Inv v' (take (length xs - 1) xs) ∧
        data_ v' = set_cells (data_ v) (cells (data_ v')) ∧
        (xs = [] → v' = v).
Proof.
  intros HI. pose proof HI as HI0.
  destruct (Inv_shape _ _ HI) as (b & k & ->). clear HI.
  unfold PopBack. simpl.
  induction xs as [|y ys _] using rev_ind.
  { cbn. eexists. split; [done|]. split; [exact HI0|]. by split. }
  clear HI0. rewrite length_app. simpl.
  assert ((0 <? length ys + 1) = true) as -> by (apply Nat.ltb_lt; lia).
  replace (length ys + 1 - 1) with (length ys) by lia.
  rewrite fmap_app, <- app_assoc. simpl. unfold destroy_at.
  rewrite (list_lookup_middle _ _ (Obj y) (length ys))
    by (by rewrite length_fmap).
  rewrite insert_middle_at by (by rewrite length_fmap).
  eexists. split; [done|]. rewrite take_app_length.
  split; [|split; [done|]].
  - apply (Inv_intro b _ ys (S k)); simpl; lia.
  - intros Hnil. by destruct ys.
Qed.

(** X6.  [PopBack] always returns; on a vector that satisfies the
    representation invariant it destroys the last element and nothing else,
    keeps the block, and does nothing to an empty vector. *)
Theorem PopBack_removes_last (v : Vector) (xs : list T) (w : world) :
  Inv v xs →
  ∃ v', PopBack v w = (Ret tt, v', w) ∧
        Inv v' (take (length xs - 1) xs) ∧
        data_ v' = set_cells (data_ v) (cells (data_ v')) ∧
        (xs = [] → v' = v).
Proof. apply PopBack_Inv. Qed.

(** ** The constructors *)



Lemma Holds_cells v xs :
  Holds v xs →
  cells (data_ v) = (Obj <$> xs) ++ drop (length xs) (cells (data_ v)).
Proof.
  intros (_ & Hs & Hc). unfold contents in Hc.
  by rewrite <- Hc, Hs, take_drop.
Qed.

Lemma Vector_copy_Inv other xs w o w' :
  Holds other xs → Vector_copy other w = (o, w') →
  log w' = log w ∧
  (calm w → ∃ v, o = Ret v) ∧
  match o with
  | Ret v => Inv v xs ∧ Capacity v = length xs
  | Throw => True
  | AssertFail => False
  end.
Proof.
  intros Hv. pose proof (Holds_cells _ _ Hv) as Hcells.
  destruct Hv as (_ & Hs & _). unfold Vector_copy. rewrite Hs, Hcells.
  destruct (RawMemory_new (length xs) w) as [[data|] w1] eqn:Hnew.
  - pose proof (RawMemory_new_Some _ _ _ _ Hnew) as (Hcap & Hc & Hl & Hcw & _).
    rewrite Hc.
    destruct (uninitialized_copy_n _ 0 (length xs)
                (replicate (length xs) Raw) 0 w1) as [[ok c2] w2] eqn:H2.
    pose proof (uninitialized_copy_n_parts xs []
                  (drop (length xs) (cells (data_ other))) [] [] w1 ok c2 w2)
      as Hp.
    simpl in Hp. rewrite app_nil_r in Hp.
    destruct (Hp H2) as (Hl2 & _ & Hc2). clear Hp.
    assert (calm w → ok = true) as Hcalm
      by (intros Hw;
          by destruct (uninitialized_copy_n_calm _ _ _ _ _ _ _ _ _
                         (Hcw Hw) H2)).
    clear H2. destruct ok; intros; simplify_eq.
    + split; [congruence|]. split; [by eexists|]. split; [|done].
      apply (Inv_intro _ _ xs 0); simpl; lia.
    + unfold RawMemory_dtor. simpl. rewrite Deallocate_raw.
      split; [congruence|]. split; [|done].
      intros Hw. by specialize (Hcalm Hw).
  - intros; simplify_eq. split; [by eapply RawMemory_new_None|].
    split; [|done]. intros Hw.
    destruct (RawMemory_new_calm (length xs) w Hw) as (? & ? & ? & _).
    congruence.
Qed.

(** X8.  The copy constructor.  When it returns, the new vector holds the
    elements of the source, in order, in a block of exactly that many slots;
    when it throws, the copies made so far have been destroyed and nothing is
    leaked; with no failure scheduled it returns. *)
Theorem Vector_copy_spec (other : Vector) (xs : list T) (w : world)
    (o : outcome Vector) (w' : world) :
  Holds other xs → Vector_copy other w = (o, w') →
  log w' = log w ∧
  (calm w → ∃ v, o = Ret v) ∧
  match o with
  | Ret v => Inv v xs ∧ Capacity v = length xs
  | Throw => True
  | AssertFail => False
  end.
Proof. apply Vector_copy_Inv. Qed.

Lemma Vector_move_Holds other xs :
  Holds other xs → handle_ok (data_ other) →
  Vector_move other = (other, Vector_default).
Proof.
  intros Hv Hok. pose proof (Holds_size_le _ _ Hv) as Hle.
  destruct Hv as (Hlen & _ & _).
  destruct other as [[b cap c] n]. unfold handle_ok in Hok. simpl in *.
  unfold Vector_move, RawMemory_move_assign. simpl.
  destruct (b =? 0) eqn:E; simpl; [|done].
  apply Nat.eqb_eq in E. subst b. specialize (Hok eq_refl). subst cap.
  destruct c; [|done]. by replace n with 0 by lia.
Qed.

(** X9.  The move constructor hands the whole vector over.  For a vector that
    holds its elements in a block whose null-ness agrees with its capacity,
    the new vector is the source as it was (same block, same elements, same
    size) and the source is left as a default-constructed vector: null
    buffer, capacity 0, size 0. *)
Theorem Vector_move_takes_all (other : Vector) (xs : list T) :
  Holds other xs → handle_ok (data_ other) →
  Vector_move other = (other, Vector_default).
Proof. apply Vector_move_Holds. Qed.

(** ** Element access *)

(** X10.  [operator[]] of the vector on a vector that holds [xs]: an index
    below the size passes both asserts (the vector's and RawMemory's) and
    designates the slot that holds that element; any other index fails the
    vector's assert. *)
Theorem Vector_at_spec (index : nat) (v : Vector) (xs : list T) :
  Holds v xs →
  match xs !! index with
  | Some x => Vector_at index v = Ret index ∧
              cells (data_ v) !! index = Some (Obj x)
  | None => Vector_at index v = AssertFail
  end.
Proof.
  intros Hv. pose proof (Holds_size_le _ _ Hv) as Hle.
  pose proof Hv as (_ & Hs & _). unfold Vector_at, RawMemory_at.
  destruct (xs !! index) as [x|] eqn:Hx.
  - pose proof (lookup_lt_Some _ _ _ Hx) as Hlt.
    assert ((index <? size_ v) = true) as -> by (apply Nat.ltb_lt; lia).
    assert ((index <? capacity_ (data_ v)) = true) as ->
      by (apply Nat.ltb_lt; lia).
    split; [done|]. apply (Holds_lookup _ _ _ _ Hv Hx).
  - apply lookup_ge_None in Hx.
    by assert ((index <? size_ v) = false) as -> by (apply Nat.ltb_ge; lia).
Qed.

(** ** Raw storage *)


(** ** Move assignment and Swap *)

(** X12.  Move assignment is [Swap]: on two distinct vectors the guard lets the
    exchange happen, and on one and the same vector both leave it as it is,
    so the [this != &rhs] test changes nothing that can be observed. *)
Theorem move_assign_is_swap (this rhs : nat) (σ : state) :
  move_assign this rhs σ = swap this rhs σ.
Proof.
  unfold move_assign, swap.
  destruct (objs σ !! this) as [v|] eqn:Hv; [|done].
  destruct (objs σ !! rhs) as [r|] eqn:Hr; [|done].
  destruct (this =? rhs) eqn:E; simpl; [|done].
  apply Nat.eqb_eq in E. subst rhs. rewrite Hv in Hr. injection Hr as <-.
  destruct v as [[b cap c] n]. unfold Swap, RawMemory_Swap. simpl.
  rewrite insert_insert_eq, insert_id by done. by destruct σ.
Qed.

(** ** Allocation failure *)

Lemma RawMemory_new_fails n w w' :
  0 < n → tick w = (true, w') → RawMemory_new n w = (None, w').
Proof.
  intros Hn Ht. unfold RawMemory_new, Allocate.
  assert ((n =? 0) = false) as -> by (apply Nat.eqb_neq; lia).
  by rewrite Ht.
Qed.

(** X13.  When operator new throws, every operation that asked for a new block
    throws at once and leaves the vector exactly as it was, with nothing
    logged and nothing else of the fault schedule consumed: [Reserve] and a
    growing [Resize], the insertions into a full vector, a copy assignment
    needing growth, and the sized and the copy constructor. *)
Theorem allocation_failure_leaves_vector (v : Vector) (w w' : world) :
  tick w = (true, w') →
  (∀ n, Capacity v < n → Reserve n v w = (Throw, v, w')) ∧
  (∀ n, size_ v < n → Capacity v < n → Resize n v w = (Throw, v, w')) ∧
  (∀ pos x, size_ v = Capacity v → pos ≤ size_ v →
     Emplace pos x v w = (Throw, v, w') ∧
     Insert pos x v w = (Throw, v, w')) ∧
  (∀ x, size_ v = Capacity v →
     EmplaceBack x v w = (Throw, v, w') ∧
     PushBack x v w = (Throw, v, w')) ∧
  (∀ rhs, Capacity v < size_ rhs →
     Vector_copy_assign rhs v w = (Throw, v, w')) ∧
  (0 < size_ v → Vector_copy v w = (Throw, w')) ∧
  (∀ n, 0 < n → Vector_sized n w = (Throw, w')).
Proof.
  intros Ht.
  assert (∀ n, Capacity v < n → Reserve n v w = (Throw, v, w')) as HR.
  { intros n Hn. unfold Reserve, Capacity in *.
    assert ((n <=? capacity_ (data_ v)) = false) as ->
      by (apply Nat.leb_gt; lia).
    by rewrite (RawMemory_new_fails n w w') by (done || lia). }
  assert (∀ pos x, size_ v = Capacity v → pos ≤ size_ v →
            Emplace pos x v w = (Throw, v, w')) as HE.
  { intros pos x Hfull Hpos. unfold Emplace, Emplace_body.
    assert ((pos <=? size_ v) = true) as -> by (by apply Nat.leb_le).
    simpl. apply Nat.eqb_eq in Hfull. rewrite Hfull.
    rewrite (RawMemory_new_fails _ w w'); [done| |done].
    destruct (0 <? size_ v) eqn:E; [apply Nat.ltb_lt in E|]; lia. }
  assert (∀ x, size_ v = Capacity v →
            EmplaceBack x v w = (Throw, v, w')) as HB.
  { intros x Hfull. rewrite <- Emplace_at_end. by apply HE. }
  split; [done|]. split.
  { intros n Hs Hn. unfold Resize.
    assert ((n =? size_ v) = false) as -> by (apply Nat.eqb_neq; lia).
    assert ((n <? size_ v) = false) as -> by (apply Nat.ltb_ge; lia).
    by rewrite HR. }
  split; [intros pos x Hfull Hpos; unfold Insert; by rewrite HE|].
  split; [intros x Hfull; unfold PushBack; by rewrite HB|].
  split.
  { intros rhs Hn. unfold Vector_copy_assign, Vector_copy.
    assert ((Capacity v <? size_ rhs) = true) as -> by (by apply Nat.ltb_lt).
    by rewrite (RawMemory_new_fails _ w w') by (done || lia). }
  split.
  { intros Hs. unfold Vector_copy.
    by rewrite (RawMemory_new_fails _ w w'). }
  intros n Hn. unfold Vector_sized. by rewrite (RawMemory_new_fails _ w w').
Qed.

(** ** Copy assignment *)




(** ** Insertion anywhere without loss *)

Lemma insert_replicate_raw N pos (s : slot) :
  pos < N →
  <[pos := s]> (replicate N Raw) =
    replicate pos Raw ++ s :: replicate (N - S pos) Raw.
Proof.
  intros H.
  replace (replicate N (@Raw))
    with (replicate pos (@Raw) ++ Raw :: replicate (N - S pos) Raw).
  - apply insert_middle_at. by rewrite length_replicate.
  - change (Raw :: replicate (N - S pos) Raw)
      with (replicate (S (N - S pos)) (@Raw)).
    rewrite <- replicate_add. f_equal. lia.
Qed.

Lemma move_construct_within_raw c i d y w :
  c !! i = Some (Obj y) → c !! d = Some Raw →
  move_construct_within c i d w =
    (<[i := Obj (moved_from y)]> (<[d := Obj y]> c), w).
Proof.
  intros Hi Hd. unfold move_construct_within. rewrite Hi.
  by rewrite construct_at_raw.
Qed.

(** The three steps of the insertion before [end()] when the slot at
    [end()] is raw: nothing is logged. *)
Lemma shift_and_assign_raw pre ys y rest x w :
  ∃ c1 c2,
    move_construct_within (pre ++ (Obj <$> ys) ++ Obj y :: Raw :: rest)
      (length pre + length ys) (S (length pre + length ys)) w = (c1, w) ∧
    move_backward c1 (length pre) (length ys)
      (S (length pre + length ys)) w = (c2, w) ∧
    assign_value c2 (length pre) x w =
      (pre ++ Obj x :: (Obj <$> ys) ++ Obj y :: rest, w).
Proof.
  destruct (shift_and_assign pre ys y Raw rest x w)
    as (c1 & w1 & c2 & H1 & H2 & H3).
  assert (w1 = w) as ->.
  { rewrite (move_construct_within_raw _ _ _ y) in H1; [by simplify_eq| |].
    - rewrite app_assoc. apply list_lookup_middle.
      by rewrite length_app, length_fmap.
    - rewrite app_assoc.
      replace (S (length pre + length ys))
        with (S (length (pre ++ (Obj <$> ys))))
        by (by rewrite length_app, length_fmap).
      apply lookup_second. }
  by exists c1, c2.
Qed.

Lemma Emplace_spare_mid_any pos x v xs w o v' w' :
  Inv v xs → size_ v ≠ Capacity v → pos < size_ v →
  Emplace pos x v w = (o, v', w') →
  log w' = log w ∧
  match o with
  | Ret _ => Inv v' (take pos xs ++ x :: drop pos xs)
  | Throw => v' = v
  | AssertFail => False
  end.
Proof.
  intros HI. destruct (Inv_shape _ _ HI) as (b & k & ->). clear HI.
  unfold Capacity. simpl. intros Hspare Hpos.
  destruct k as [|k]; [lia|]. clear Hspare.
  destruct (drop pos xs) as [|y0 ys0] eqn:Hdrop using rev_ind.
  { apply (f_equal length) in Hdrop. rewrite length_drop in Hdrop.
    simpl in Hdrop. lia. }
  clear IHys0. rename y0 into y, ys0 into ys.
  assert (length ys = length xs - 1 - pos) as Hys.
  { apply (f_equal length) in Hdrop.
    rewrite length_drop, length_app in Hdrop. simpl in Hdrop. lia. }
  set (pre := Obj <$> take pos xs).
  assert (length pre = pos) as Hpre
    by (unfold pre; rewrite length_fmap, length_take; lia).
  assert ((Obj <$> xs) ++ Raw :: replicate k Raw =
          pre ++ (Obj <$> ys) ++ Obj y :: Raw :: replicate k Raw) as Hcells.
  { rewrite <- (take_drop pos xs) at 1. rewrite Hdrop. unfold pre.
    by rewrite !fmap_app, <- !app_assoc. }
  destruct (shift_and_assign_raw pre ys y (replicate k Raw) x (tick w).2)
    as (c1 & c2 & H1 & H2 & H3).
  rewrite Hpre in H1, H2, H3.
  replace (pos + length ys) with (length xs - 1) in H1, H2 by lia.
  replace (S (length xs - 1)) with (length xs) in H1, H2 by lia.
  rewrite Hys in H2.
  unfold Emplace, Emplace_body, Capacity. simpl.
  assert ((pos <=? length xs) = true) as -> by (apply Nat.leb_le; lia).
  simpl.
  assert ((length xs =? length xs + S k) = false) as ->
    by (apply Nat.eqb_neq; lia).
  assert ((length xs =? pos) = false) as -> by (apply Nat.eqb_neq; lia).
  destruct (tick w) as [[] w0] eqn:Ht; apply tick_frame in Ht as [Hl _];
    [by intros [= <- <- <-]|].
  simpl in *.
  unfold RawMemory_at. simpl.
  assert ((length xs - 1 <? length xs + S k) = true) as ->
    by (apply Nat.ltb_lt; lia).
  assert ((pos <? length xs + S k) = true) as ->
    by (apply Nat.ltb_lt; lia).
  rewrite Hcells, H1, H2, H3. intros [= <- <- <-]. split; [done|].
  unfold set_cells. simpl.
  replace (pre ++ Obj x :: (Obj <$> ys) ++ Obj y :: replicate k Raw)
    with ((Obj <$> take pos xs ++ x :: ys ++ [y]) ++ replicate k Raw)
    by (unfold pre;
        rewrite !fmap_app, fmap_cons, !fmap_app, <- !app_assoc; simpl;
        by rewrite <- !app_assoc).
  apply (Inv_intro b _ _ k); rewrite length_app, length_take; simpl;
    rewrite length_app; simpl; lia.
Qed.

Lemma Emplace_grow_move_any pos x v xs w o v' w' :
  nothrow_move_or_not_copyable = true →
  Inv v xs → size_ v = Capacity v → pos ≤ size_ v →
  Emplace pos x v w = (o, v', w') →
  log w' = log w ∧
  match o with
  | Ret _ => Inv v' (take pos xs ++ x :: drop pos xs)
  | Throw => v' = v
  | AssertFail => False
  end.
Proof.
  intros Hmove HI. destruct (Inv_shape _ _ HI) as (b & k & ->). clear HI.
  unfold Capacity. simpl. intros Hfull Hpos.
  assert (k = 0) as -> by lia. clear Hfull.
  unfold Emplace, Emplace_body, Capacity. simpl. rewrite Hmove.
  assert ((pos <=? length xs) = true) as -> by (by apply Nat.leb_le). simpl.
  rewrite Nat.add_0_r, Nat.eqb_refl.
  set (N := if 0 <? length xs then length xs * 2 else 1).
  assert (length xs < N) as HN
    by (unfold N; destruct (0 <? length xs) eqn:E;
        [apply Nat.ltb_lt in E|apply Nat.ltb_ge in E]; lia).
  destruct (RawMemory_new N w) as [[new_data|] w1] eqn:Hnew;
    [|intros [= <- <- <-]; split; [by eapply RawMemory_new_None|done]].
  apply RawMemory_new_Some in Hnew as (Hcap & Hcells & Hlog & _).
  destruct (tick w1) as [[] w2] eqn:Ht; apply tick_frame in Ht as [Hl2 _].
  { intros [= <- <- <-]. unfold RawMemory_dtor.
    rewrite Hcells, Deallocate_raw. split; [congruence|done]. }
  rewrite Hcells, construct_at_raw by (apply lookup_replicate_2; lia).
  rewrite insert_replicate_raw by lia.
  assert (length (take pos xs) = pos) as HA by (rewrite length_take; lia).
  assert (length (drop pos xs) = length xs - pos) as HB
    by (rewrite length_drop; lia).
  replace (replicate (N - S pos) (@Raw))
    with (replicate (length xs - pos) (@Raw) ++
          replicate (N - S (length xs)) Raw)
    by (rewrite <- replicate_add; f_equal; lia).
  rewrite app_nil_r.
  assert (Obj <$> xs = (Obj <$> take pos xs) ++ (Obj <$> drop pos xs))
    as Hsplit by (by rewrite <- fmap_app, take_drop).
  rewrite Hsplit.
  pose proof (uninitialized_move_n_at (take pos xs) [] (Obj <$> drop pos xs)
                [] (Obj x :: replicate (length xs - pos) Raw ++
                             replicate (N - S (length xs)) Raw)
                0 pos 0 w2 eq_refl (eq_sym HA) eq_refl) as Hm1.
  rewrite !app_nil_l in Hm1. rewrite Hm1. clear Hm1.
  pose proof (uninitialized_move_n_at (drop pos xs)
                (Obj <$> (moved_from <$> take pos xs)) []
                ((Obj <$> take pos xs) ++ [Obj x])
                (replicate (N - S (length xs)) Raw)
                pos (length xs - pos) (pos + 1) w2) as Hm2.
  rewrite app_nil_r, <- !app_assoc in Hm2. cbn [app] in Hm2.
  rewrite Hm2
    by (rewrite ?length_app, ?length_fmap, ?length_take, ?length_drop;
        simpl; lia).
  clear Hm2. unfold RawMemory_Swap. simpl.
  replace ((Obj <$> (moved_from <$> take pos xs)) ++
           (Obj <$> (moved_from <$> drop pos xs)) ++ [])
    with ((Obj <$> (moved_from <$> xs)) ++ replicate 0 Raw)
    by (simpl; by rewrite !app_nil_r, <- !fmap_app, take_drop).
  rewrite DestroyN_objs by (by rewrite length_fmap).
  unfold RawMemory_dtor. simpl. rewrite app_nil_r, Deallocate_raw.
  intros [= <- <- <-]. split; [congruence|].
  replace ((Obj <$> take pos xs) ++
           Obj x :: (Obj <$> drop pos xs) ++
           replicate (N - S (length xs)) Raw)
    with ((Obj <$> take pos xs ++ x :: drop pos xs) ++
          replicate (N - S (length xs)) Raw)
    by (by rewrite fmap_app, fmap_cons, <- app_assoc).
  apply (Inv_intro _ _ _ (N - S (length xs)));
    rewrite length_app; simpl; lia.
Qed.

Lemma Emplace_Inv pos x v xs w i v' w' :
  Inv v xs → pos ≤ size_ v →
  nothrow_move_or_not_copyable = true ∨ size_ v ≠ Capacity v ∨
    pos = size_ v →
  Emplace pos x v w = (Ret i, v', w') →
  Inv v' (take pos xs ++ x :: drop pos xs) ∧ log w' = log w.
Proof.
  intros HI Hpos Hbranch H.
  destruct (decide (pos = size_ v)) as [->|Hmid].
  - rewrite Emplace_at_end in H.
    apply (EmplaceBack_Inv _ _ _ _ _ _ _ HI) in H as [HI' Hl].
    destruct HI as [(_ & Hs & _) _].
    split; [|done]. by rewrite Hs, take_ge, drop_ge.
  - destruct (decide (size_ v = Capacity v)) as [Hfull|Hspare].
    + destruct Hbranch as [Hmove|[?|?]]; [|done..].
      by destruct (Emplace_grow_move_any _ _ _ _ _ _ _ _ Hmove HI Hfull
                     Hpos H).
    + assert (pos < size_ v) as Hlt by lia.
      by destruct (Emplace_spare_mid_any _ _ _ _ _ _ _ _ HI Hspare Hlt H).
Qed.

(** X15.  [Emplace] and [Insert] wherever the defective copy-based growth is
    not taken (the move-based transfer, spare capacity, or [pos == end()]),
    on a vector that satisfies the representation invariant: the call
    returns [pos]; the vector holds the old prefix, the new element, the old
    suffix, with every slot past them raw; nothing is leaked or destroyed
    out of turn, neither by the shift inside the block nor by the move into
    a new one. *)
Theorem Emplace_without_loss (pos : nat) (x : T) (v : Vector) (xs : list T)
    (w : world) (i : nat) (v' : Vector) (w' : world) :
  Inv v xs → pos ≤ size_ v →
  nothrow_move_or_not_copyable = true ∨ size_ v ≠ Capacity v ∨
    pos = size_ v →
  Emplace pos x v w = (Ret i, v', w') →
  i = pos ∧ Insert pos x v w = Emplace pos x v w ∧
  Inv v' (take pos xs ++ x :: drop pos xs) ∧ log w' = log w.
Proof.
  intros HI Hpos Hbranch H.
  destruct (Emplace_Inv _ _ _ _ _ _ _ _ HI Hpos Hbranch H) as [HI' Hl].
  destruct HI as [Hv _].
  destruct (Emplace_inserts _ _ _ _ _ _ _ _ Hv Hpos Hbranch H) as (-> & _).
  split; [done|]. split; [done|]. by split.
Qed.

(** ** Round trips and blocks that stay *)

(** X16.  [PopBack] undoes [PushBack]: on a vector that satisfies the
    representation invariant, a [PushBack] that returns followed by a
    [PopBack] leaves the elements as they were, with nothing leaked. *)
Theorem PushBack_PopBack (x : T) (v : Vector) (xs : list T) (w : world)
    (v1 : Vector) (w1 : world) :
  Inv v xs → PushBack x v w = (Ret tt, v1, w1) →
  ∃ v2, PopBack v1 w1 = (Ret tt, v2, w1) ∧ Inv v2 xs ∧ log w1 = log w.
Proof.
  intros HI H. unfold PushBack in H.
  destruct (EmplaceBack x v w) as [[[i| |] v0] w0] eqn:HE; simpl in H;
    [|done..].
  injection H as -> ->.
  destruct (EmplaceBack_Inv _ _ _ _ _ _ _ HI HE) as [HI1 Hl].
  destruct (PopBack_Inv _ _ w1 HI1) as (v2 & HP & HI2 & _).
  exists v2. split; [done|]. split; [|done].
  rewrite length_app in HI2. simpl in HI2.
  replace (length xs + 1 - 1) with (length xs) in HI2 by lia.
  by rewrite take_app_length in HI2.
Qed.

(** X17.  Insertions at the end that fit into the capacity keep the block:
    as long as the size plus the number of values pushed does not exceed
    the capacity, the buffer and the capacity stay what they were, however
    the run ends, so references into the vector stay valid. *)
Theorem pushes_within_capacity_keep_block (ys : list T) :
  ∀ (v : Vector) (w : world) (o : outcome unit) (v' : Vector) (w' : world),
  size_ v + length ys ≤ Capacity v →
  push_all ys v w = (o, v', w') →
  buffer_ (data_ v') = buffer_ (data_ v) ∧ Capacity v' = Capacity v ∧
  size_ v' ≤ size_ v + length ys.
Proof.
  induction ys as [|y ys IH]; simpl; intros v w o v' w' Hfit H.
  { simplify_eq. repeat split; lia. }
  unfold PushBack in H.
  destruct (EmplaceBack y v w) as [[o1 v1] w1] eqn:HE.
  assert (size_ v ≠ Capacity v) as Hspare by lia.
  destruct (EmplaceBack_spare_fields _ _ _ _ _ _ Hspare HE)
    as (Hcap & Hbuf & Ho).
  unfold Capacity in *.
  destruct o1 as [i| |]; simpl in H.
  - destruct Ho as [_ Hs].
    apply IH in H as (? & ? & ?); [|lia].
    repeat split; [congruence|congruence|lia].
  - simplify_eq. repeat split; lia.
  - done.
Qed.

(** X18.  [Swap] is its own inverse: two vectors swapped twice are back where
    they were, and so is the whole state; the same holds for a vector
    swapped with itself. *)
Theorem swap_swap (this other : nat) (v o : Vector) (σ : state) :
  objs σ !! this = Some v → objs σ !! other = Some o →
  ∃ σ', swap this other σ = (Ret tt, σ') ∧
        objs σ' !! this = Some o ∧ objs σ' !! other = Some v ∧
        swap this other σ' = (Ret tt, σ).
Proof.
  intros Hv Ho. destruct σ as [m w]. simpl in *.
  destruct v as [[vb vc vs] vn], o as [[ob oc os] on].
  unfold swap, Swap, RawMemory_Swap. simpl. rewrite Hv, Ho. simpl.
  eexists. split; [done|]. simpl.
  destruct (decide (this = other)) as [->|Hne].
  - simplify_eq. rewrite lookup_insert_eq. simpl.
    split; [done|]. split; [done|].
    by rewrite !insert_insert_eq, insert_id.
  - rewrite lookup_insert_ne, lookup_insert_eq by done.
    rewrite lookup_insert_eq. simpl. split; [done|]. split; [done|].
    f_equal. f_equal.
    rewrite (insert_insert_ne _ this other) by done.
    rewrite !insert_insert_eq.
    by rewrite (insert_id _ this), (insert_id _ other).
Qed.

(** ** What Erase costs *)

Lemma Erase_shape b k xs pos w :
  pos < length xs →
  ∃ z w',
    Erase pos (mkVector (mkRawMemory b (length xs + k)
                           ((Obj <$> xs) ++ replicate k Raw)) (length xs)) w =
      (Ret pos,
       mkVector (mkRawMemory b (length xs + k)
                   ((Obj <$> delete pos xs) ++ Obj z :: replicate k Raw))
         (length xs - 1), w') ∧
    ∃ e, log w' = e :: log w.
Proof.
  intros Hpos.
  destruct (lookup_lt_is_Some_2 xs pos) as [x0 Hx0]; [lia|].
  set (pre := Obj <$> take pos xs). set (ys := drop (S pos) xs).
  assert (length pre = pos) as Hpre
    by (unfold pre; rewrite length_fmap, length_take; lia).
  assert (length ys = length xs - (pos + 1)) as Hys
    by (unfold ys; rewrite length_drop; lia).
  assert (length (delete pos xs) = length xs - 1) as Hdel
    by (rewrite length_delete by eauto; lia).
  assert ((Obj <$> xs) ++ replicate k Raw =
          pre ++ Obj x0 :: (Obj <$> ys) ++ replicate k Raw) as Hc.
  { rewrite <- (take_drop_middle xs pos x0) at 1 by done.
    by rewrite fmap_app, fmap_cons, <- app_assoc. }
  destruct (move_range_shift ys pre x0 (replicate k Raw) w) as [z Hz].
  rewrite Hpre, Hys in Hz.
  unfold Erase. simpl.
  assert ((pos <? length xs) = true) as -> by (by apply Nat.ltb_lt). simpl.
  rewrite Hc. replace (pos + 1) with (S pos) in * by lia. rewrite Hz.
  assert (pre ++ (Obj <$> ys) ++ Obj z :: replicate k Raw =
          (Obj <$> delete pos xs) ++ Obj z :: replicate k Raw) as ->
    by (unfold pre, ys; by rewrite delete_take_drop, fmap_app, <- app_assoc).
  unfold destroy_at, set_cells. simpl.
  destruct k as [|k]; simpl.
  - rewrite lookup_ge_None_2
      by (rewrite length_app, length_fmap; simpl; lia).
    eexists z, _. split; [done|]. by eexists.
  - assert (((Obj <$> delete pos xs) ++ Obj z :: Raw :: replicate k Raw)
              !! length xs = Some Raw) as ->.
    { replace (length xs) with (S (length (Obj <$> delete pos xs)))
        by (rewrite length_fmap; lia).
      apply lookup_second. }
    eexists z, _. split; [done|]. by eexists.
Qed.

(** X19.  What the misplaced [destroy_at] of [Erase] costs in the end.  After
    an [Erase] at a valid position of a vector that satisfies the
    representation invariant, the slot just past the new size still holds a
    live object, so the destructor of the vector, which destroys the first
    [size_] objects and releases the block, loses exactly that object. *)
Theorem Erase_then_destructor_leaks (v : Vector) (xs : list T) (pos : nat)
    (w : world) :
  Inv v xs → pos < size_ v →
  ∃ v' w' z,
    Erase pos v w = (Ret pos, v', w') ∧
    cells (data_ v') !! size_ v' = Some (Obj z) ∧
    Vector_dtor v' w' = note (Leak z) w'.
Proof.
  intros HI. destruct (Inv_shape _ _ HI) as (b & k & ->). clear HI.
  simpl. intros Hpos.
  destruct (Erase_shape b k xs pos w Hpos) as (z & w' & -> & _).
  assert (length (delete pos xs) = length xs - 1) as Hdel.
  { destruct (lookup_lt_is_Some_2 xs pos) as [x0 Hx0]; [lia|].
    rewrite length_delete by eauto. lia. }
  eexists _, w', z. split; [done|]. simpl. split.
  - apply list_lookup_middle. by rewrite length_fmap.
  - unfold Vector_dtor, DestroyN, RawMemory_dtor. simpl.
    pose proof (destroy_n_at (delete pos xs) [] (Obj z :: replicate k Raw)
                  0 (length xs - 1) w' eq_refl (eq_sym Hdel)) as Hd.
    rewrite !app_nil_l in Hd. rewrite Hd. simpl.
    rewrite Deallocate_app, Deallocate_raw. simpl.
    apply Deallocate_raw.
Qed.

(** ** Programs that never lose an object *)











End AdvancedVector.

(** * The vector of natural numbers, on concrete inputs

    [T] is [nat]; a moved-from number keeps its value; [T()] is 0. *)

(** A world in which nothing fails; the addresses up to 1 are taken. *)
Definition no_faults : @world nat := World 1 [] [].

(** The vector with its block at address [buf] and capacity [cap] that holds
    [xs]. *)
Definition vec_at (buf : nat) (xs : list nat) (cap : nat) : @Vector nat :=
  mkVector
    (mkRawMemory buf cap ((Obj <$> xs) ++ replicate (cap - length xs) Raw))
    (length xs).

Definition vec : list nat → nat → @Vector nat := vec_at 1.

(** Two vectors, at the addresses 10 and 20. *)
Definition two_vectors : @state nat :=
  State (<[20 := vec_at 2 [7] 1]> (<[10 := vec_at 1 [1; 2; 3] 4]> ∅))
        (World 2 [] []).

(** The scenarios of the specification. *)

Example push_1_2_3 :
  push_all id true [1; 2; 3] Vector_default no_faults =
    (Ret tt,
     mkVector (mkRawMemory 4 4 [Obj 1; Obj 2; Obj 3; Raw]) 3,
     World 4 [] []) ∧
  push_all id false [1; 2; 3] Vector_default no_faults =
    (Ret tt,
     mkVector (mkRawMemory 4 4 [Obj 1; Obj 2; Obj 3; Raw]) 3,
     World 4 [] []).
Proof. split; reflexivity. Qed.

Example capacities_1_2_4 :
  Capacity (push_all id false [1] Vector_default no_faults).1.2 = 1 ∧
  Capacity (push_all id false [1; 2] Vector_default no_faults).1.2 = 2 ∧
  Capacity (push_all id false [1; 2; 3] Vector_default no_faults).1.2 = 4.
Proof. repeat split; reflexivity. Qed.

Example erase_2_of_1_2_3 :
  (Erase id 1 (vec [1; 2; 3] 4) no_faults).1 =
    (Ret 1, mkVector (mkRawMemory 1 4 [Obj 1; Obj 3; Obj 3; Raw]) 2).
Proof. reflexivity. Qed.

Example emplace_99_move_based :
  Emplace id true 1 99 (vec [1; 2; 3] 3) no_faults =
    (Ret 1,
     mkVector (mkRawMemory 2 6 [Obj 1; Obj 99; Obj 2; Obj 3; Raw; Raw]) 4,
     World 2 [] []).
Proof. reflexivity. Qed.

Example emplace_99_spare_capacity :
  Emplace id false 1 99 (vec [1; 2; 3] 4) no_faults =
    (Ret 1,
     mkVector (mkRawMemory 1 4 [Obj 1; Obj 99; Obj 2; Obj 3]) 4,
     no_faults).
Proof. reflexivity. Qed.

Example resize_5_then_2 :
  (Resize id 0 false 5 (vec [1; 2; 3] 3) no_faults).1 =
    (Ret tt,
     mkVector (mkRawMemory 2 5 [Obj 1; Obj 2; Obj 3; Obj 0; Obj 0]) 5) ∧
  (Resize id 0 false 2 (vec [1; 2; 3; 0; 0] 5) no_faults).1 =
    (Ret tt, mkVector (mkRawMemory 1 5 [Obj 1; Obj 2; Raw; Raw; Raw]) 2).
Proof. split; reflexivity. Qed.

Example move_construct_from_1_2_3 :
  Vector_move (vec [1; 2; 3] 4) = (vec [1; 2; 3] 4, Vector_default).
Proof. reflexivity. Qed.

(** C1 at [[1,2,3]] with capacity 4, erasing at index 1: the elements become
    [[1,3]], the one [destroy_at] lands on index 3 (raw), and index 2 still
    holds an object. *)
Lemma Erase_destroys_past_the_end_witness :
  Erase id 1 (vec [1; 2; 3] 4) no_faults =
    (Ret 1,
     mkVector (mkRawMemory 1 4 [Obj 1; Obj 3; Obj 3; Raw]) 2,
     World 1 [] [DestroyNoObject 3]) ∧
  Inv (vec [1; 2; 3] 4) [1; 2; 3] ∧
  1 < size_ (vec [1; 2; 3] 4) ∧
  ∃ v' w' y,
    Erase id 1 (vec [1; 2; 3] 4) no_faults = (Ret 1, v', w') ∧
    size_ v' = size_ (vec [1; 2; 3] 4) - 1 ∧
    contents v' = Obj <$> delete 1 [1; 2; 3] ∧
    cells (data_ v') !! (size_ (vec [1; 2; 3] 4) - 1) = Some (Obj y) ∧
    log w' =
      (if size_ (vec [1; 2; 3] 4) <? Capacity (vec [1; 2; 3] 4)
       then DestroyNoObject (size_ (vec [1; 2; 3] 4))
       else OutOfBlock (size_ (vec [1; 2; 3] 4))) :: log no_faults.
Proof.
  split; [reflexivity|]. split; [by vm_compute|]. split; [simpl; lia|].
  apply (Erase_destroys_past_the_end id (vec [1; 2; 3] 4) [1; 2; 3] 1 no_faults).
  - by vm_compute.
  - simpl. lia.
Defined.

(** The same on a full vector: the [destroy_at] lands one past the block. *)
Example erase_on_full_vector :
  Erase id 1 (vec [1; 2; 3] 3) no_faults =
    (Ret 1,
     mkVector (mkRawMemory 1 3 [Obj 1; Obj 3; Obj 3]) 2,
     World 1 [] [OutOfBlock 3]).
Proof. reflexivity. Qed.

(** C2 at [[1,2,3]] with capacity 3 under the copy-based transfer, emplacing
    99 at index 1: the grown vector has size 4 and its first two slots hold
    2 and 3, the last two are raw; the objects 1 and 99 were overwritten
    without a destructor call. *)
Lemma Emplace_copy_growth_witness :
  Emplace id false 1 99 (vec [1; 2; 3] 3) no_faults =
    (Ret 1,
     mkVector (mkRawMemory 2 6 [Obj 2; Obj 3; Raw; Raw; Raw; Raw]) 4,
     World 2 [] [Leak 99; Leak 1]) ∧
  size_ (mkVector (mkRawMemory 2 6 [Obj 2; Obj 3; Raw; Raw; Raw; Raw]) 4) =
    S (size_ (vec [1; 2; 3] 3)) ∧
  contents (mkVector (mkRawMemory 2 6 [Obj 2; Obj 3; Raw; Raw; Raw; Raw]) 4)
    !! size_ (vec [1; 2; 3] 3) = Some Raw.
Proof.
  split; [reflexivity|].
  apply (Emplace_copy_growth_last_slot_raw id false (vec [1; 2; 3] 3)
           no_faults 1 99 1 _ (World 2 [] [Leak 99; Leak 1])).
  - reflexivity.
  - reflexivity.
  - simpl. lia.
  - reflexivity.
Defined.

(** C3: a handle move-assigned to a non-empty target is not left empty. *)
Lemma RawMemory_move_assign_source_not_empty :
  (RawMemory_move_assign
     (mkRawMemory (T:=nat) 1 2 [Raw; Raw])
     (mkRawMemory 2 3 [Raw; Raw; Raw])).2 =
    mkRawMemory 1 2 [Raw; Raw] ∧
  ¬ empty_handle
      (RawMemory_move_assign
         (mkRawMemory (T:=nat) 1 2 [Raw; Raw])
         (mkRawMemory 2 3 [Raw; Raw; Raw])).2.
Proof. split; [reflexivity|]. by intros [? ?]. Qed.

Lemma RawMemory_move_leaves_witness :
  buffer_ (mkRawMemory (T:=nat) 2 3 [Raw; Raw; Raw]) ≠
    buffer_ (mkRawMemory (T:=nat) 1 2 [Raw; Raw]) ∧
  buffer_ (RawMemory_move_assign
             (mkRawMemory (T:=nat) 1 2 [Raw; Raw])
             (mkRawMemory 2 3 [Raw; Raw; Raw])).2 = 1 ∧
  capacity_ (RawMemory_move_assign
               (mkRawMemory (T:=nat) 1 2 [Raw; Raw])
               (mkRawMemory 2 3 [Raw; Raw; Raw])).2 = 2 ∧
  empty_handle (RawMemory_move (mkRawMemory (T:=nat) 2 3 [Raw; Raw; Raw])).2.
Proof.
  assert (buffer_ (mkRawMemory (T:=nat) 2 3 [Raw; Raw; Raw]) ≠
          buffer_ (mkRawMemory (T:=nat) 1 2 [Raw; Raw])) as Hne
    by (simpl; lia).
  split; [exact Hne|].
  destruct (RawMemory_move_leaves
              (mkRawMemory (T:=nat) 1 2 [Raw; Raw])
              (mkRawMemory 2 3 [Raw; Raw; Raw]))
    as (Hctor & _ & _ & Hassign & _).
  destruct (Hassign Hne) as (Hb & Hc & _). by repeat split.
Defined.

(** C4 at [[1]] with capacity 1 under the copy-based transfer: the push of 2
    allocates, constructs 2 in the new block, and the copy of 1 throws. *)
Lemma Emplace_growth_copy_throw_leaks_witness :
  PushBack id false 2 (vec [1] 1) (World 1 [false; false; true] []) =
    (Throw, vec [1] 1, World 2 [] [Leak 2]) ∧
  ∃ w',
    Emplace id false 1 2 (vec [1] 1) (World 1 [false; false; true] []) =
      (Throw, vec [1] 1, w') ∧
    log w' = Leak 2 :: log (World (T:=nat) 1 [false; false; true] []).
Proof.
  split; [reflexivity|].
  apply (Emplace_growth_copy_throw_leaks id false (vec [1] 1) [1]
           (World 1 [false; false; true] []) 1 2 []).
  - reflexivity.
  - by vm_compute.
  - reflexivity.
  - simpl. lia.
  - simpl. lia.
  - reflexivity.
Defined.

(** The same failure in [Reserve] is unwound completely. *)
Example reserve_copy_throws :
  Reserve id false 5 (vec [1; 2; 3] 3) (World 1 [false; false; true] []) =
    (Throw, vec [1; 2; 3] 3, World 2 [] []).
Proof. reflexivity. Qed.

(** C5 at the full vector [[1,2,3]]. *)
Lemma growth_doubles_capacity_witness :
  size_ (vec [1; 2; 3] 3) = Capacity (vec [1; 2; 3] 3) ∧
  1 ≤ size_ (vec [1; 2; 3] 3) ∧
  calm no_faults ∧
  (∃ v' w', Emplace id false 1 99 (vec [1; 2; 3] 3) no_faults =
              (Ret 1, v', w') ∧
            Capacity v' = 1 `max` (2 * Capacity (vec [1; 2; 3] 3))) ∧
  Capacity (EmplaceBack id false 99 (vec [1; 2; 3] 3) no_faults).1.2 = 6 ∧
  Capacity (EmplaceBack id true 99 Vector_default no_faults).1.2 = 1.
Proof.
  assert (size_ (vec [1; 2; 3] 3) = Capacity (vec [1; 2; 3] 3)) as Hfull
    by reflexivity.
  assert (1 ≤ size_ (vec [1; 2; 3] 3)) as Hpos by (simpl; lia).
  assert (calm (T:=nat) no_faults) as Hcalm by reflexivity.
  split; [exact Hfull|]. split; [exact Hpos|]. split; [exact Hcalm|].
  split; [|by split].
  destruct (growth_doubles_capacity id false (vec [1; 2; 3] 3) no_faults 1 99
              Hfull Hpos) as (_ & _ & Hgrow & _ & Hret).
  destruct (Hret Hcalm) as (_ & _ & (v' & w' & HE) & _).
  exists v', w'. split; [exact HE|]. exact (Hgrow _ _ _ HE).
Defined.


(** C9 at the pushes 1, 2, 3 into a default-constructed vector. *)
Lemma push_back_order_witness :
  Holds (Vector_default (T:=nat)) [] ∧
  calm no_faults ∧
  ∃ v w',
    push_all id false [1; 2; 3] Vector_default no_faults = (Ret tt, v, w') ∧
    contents v = Obj <$> [1; 2; 3] ∧ size_ v = 3.
Proof.
  assert (Holds (Vector_default (T:=nat)) []) as Hv by (by vm_compute).
  assert (calm (T:=nat) no_faults) as Hcalm by reflexivity.
  split; [exact Hv|]. split; [exact Hcalm|].
  destruct (push_back_order id false Vector_default [1; 2; 3] no_faults Hv)
    as [Hord Hret].
  destruct (Hret Hcalm) as (v & w' & Hp).
  exists v, w'. split; [exact Hp|]. exact (Hord _ _ Hp).
Defined.

(** Pushes into an emptied vector that kept its block. *)
Example push_into_reserved :
  push_all id false [8; 9] (vec [] 2) no_faults =
    (Ret tt, vec [8; 9] 2, no_faults).
Proof. reflexivity. Qed.

(** C10 at the vector at address 10. *)
Lemma self_assignment_no_op_witness :
  objs two_vectors !! 10 = Some (vec [1; 2; 3] 4) ∧
  copy_assign 10 10 two_vectors = (Ret tt, two_vectors) ∧
  move_assign 10 10 two_vectors = (Ret tt, two_vectors).
Proof.
  assert (objs two_vectors !! 10 = Some (vec [1; 2; 3] 4)) as Hv
    by (by vm_compute).
  split; [exact Hv|].
  exact (self_assignment_no_op 10 (vec [1; 2; 3] 4) two_vectors Hv).
Defined.

(** Between different objects the assignments do their work. *)
Example copy_assign_other :
  (copy_assign 20 10 two_vectors).2 =
    State (<[20 := mkVector (mkRawMemory 3 3 [Obj 1; Obj 2; Obj 3]) 3]>
             (objs two_vectors))
          (World 3 [] []).
Proof. by vm_compute. Qed.

Example move_assign_other :
  (move_assign 20 10 two_vectors).2 =
    State (<[10 := vec_at 2 [7] 1]> (<[20 := vec [1; 2; 3] 4]> ∅))
          (World 2 [] []).
Proof. by vm_compute. Qed.

(** C7 on a short program. *)
Lemma size_le_capacity_always_witness :
  map_Forall (λ _ v, size_ v ≤ Capacity v)
    (objs (run id 0 false
             [NewDefault 1; DoPushBack 1 5; DoPushBack 1 6; NewCopy 2 1;
              DoErase 1 0; DoResize 2 7; MoveAssign 1 2; DoPopBack 2]
             (State ∅ no_faults))).
Proof. apply size_le_capacity_always. Defined.

(** * The further properties on concrete inputs *)

(** X15 on a concrete input.  [Emplace] of 99 at index 1 of the full vector
    [[1,2,3]], move-based. *)
Lemma Emplace_without_loss_witness :
  Inv (vec [1; 2; 3] 3) [1; 2; 3] ∧
  1 ≤ size_ (vec [1; 2; 3] 3) ∧
  Emplace id true 1 99 (vec [1; 2; 3] 3) no_faults =
    (Ret 1, vec_at 2 [1; 99; 2; 3] 6, World 2 [] []) ∧
  Inv (vec_at 2 [1; 99; 2; 3] 6) [1; 99; 2; 3] ∧
  log (World 2 [] [] : @world nat) = [].
Proof.
  assert (Inv (vec [1; 2; 3] 3) [1; 2; 3]) as Hv by (by vm_compute).
  assert (1 ≤ size_ (vec [1; 2; 3] 3)) as Hp by (cbv; lia).
  assert (Emplace id true 1 99 (vec [1; 2; 3] 3) no_faults =
            (Ret 1, vec_at 2 [1; 99; 2; 3] 6, World 2 [] [])) as HE
    by reflexivity.
  destruct (Emplace_without_loss id true 1 99 _ [1; 2; 3] _ _ _ _ Hv Hp
              (or_introl eq_refl) HE) as (_ & _ & HI & Hl).
  split; [exact Hv|]. split; [exact Hp|]. split; [exact HE|].
  split; [exact HI|exact Hl].
Defined.

(** X3 on a concrete input.  [EmplaceBack] of 3 on the full vector [[1,2]],
    copy-based. *)
Lemma EmplaceBack_without_loss_witness :
  Inv (vec [1; 2] 2) [1; 2] ∧
  EmplaceBack id false 3 (vec [1; 2] 2) no_faults =
    (Ret 2, vec_at 2 [1; 2; 3] 4, World 2 [] []) ∧
  Inv (vec_at 2 [1; 2; 3] 4) [1; 2; 3] ∧
  Vector_at 2 (vec_at 2 [1; 2; 3] 4) = Ret 2 ∧
  cells (data_ (vec_at 2 [1; 2; 3] 4)) !! 2 = Some (Obj 3).
Proof.
  assert (Inv (vec [1; 2] 2) [1; 2]) as Hv by (by vm_compute).
  assert (EmplaceBack id false 3 (vec [1; 2] 2) no_faults =
            (Ret 2, vec_at 2 [1; 2; 3] 4, World 2 [] [])) as HE
    by reflexivity.
  destruct (EmplaceBack_without_loss id false 3 _ [1; 2] _ _ _ _ Hv HE)
    as (HI & _ & _ & Hat & Hx).
  split; [exact Hv|]. split; [exact HE|]. split; [exact HI|].
  split; [exact Hat|exact Hx].
Defined.

(** X4 on a concrete input.  Three [PushBack] calls from the empty vector,
    copy-based. *)
Lemma PushBack_run_without_loss_witness :
  push_all id false [1; 2; 3] Vector_default no_faults =
    (Ret tt, vec_at 4 [1; 2; 3] 4, World 4 [] []) ∧
  Inv (vec_at 4 [1; 2; 3] 4) [1; 2; 3] ∧
  log (World 4 [] [] : @world nat) = [].
Proof.
  assert (push_all id false [1; 2; 3] Vector_default no_faults =
            (Ret tt, vec_at 4 [1; 2; 3] 4, World 4 [] [])) as HP
    by reflexivity.
  destruct (PushBack_run_without_loss id false [1; 2; 3] _ _ _ HP)
    as [HI Hl].
  split; [exact HP|]. split; [exact HI|exact Hl].
Defined.




(** X6 on a concrete input.  [PopBack] on [[1,2,3]]. *)
Lemma PopBack_removes_last_witness :
  Inv (vec [1; 2; 3] 4) [1; 2; 3] ∧
  ∃ v', PopBack (vec [1; 2; 3] 4) no_faults = (Ret tt, v', no_faults) ∧
        Inv v' [1; 2].
Proof.
  assert (Inv (vec [1; 2; 3] 4) [1; 2; 3]) as Hv by (by vm_compute).
  destruct (PopBack_removes_last _ _ no_faults Hv) as (v' & HP & HI & _).
  split; [exact Hv|]. exists v'. split; [exact HP|exact HI].
Defined.


(** X8 on a concrete input.  The copy of [[1,2,3]] held in a block of 4. *)
Lemma Vector_copy_spec_witness :
  Holds (vec [1; 2; 3] 4) [1; 2; 3] ∧
  Vector_copy (vec [1; 2; 3] 4) no_faults =
    (Ret (vec_at 2 [1; 2; 3] 3), World 2 [] []) ∧
  Inv (vec_at 2 [1; 2; 3] 3) [1; 2; 3] ∧
  Capacity (vec_at 2 [1; 2; 3] 3) = 3.
Proof.
  assert (Holds (vec [1; 2; 3] 4) [1; 2; 3]) as Hv by (by vm_compute).
  assert (Vector_copy (vec [1; 2; 3] 4) no_faults =
            (Ret (vec_at 2 [1; 2; 3] 3), World 2 [] [])) as HC
    by reflexivity.
  destruct (Vector_copy_spec _ [1; 2; 3] _ _ _ Hv HC) as (_ & _ & HI & Hc).
  split; [exact Hv|]. split; [exact HC|]. split; [exact HI|exact Hc].
Defined.

(** X9 on a concrete input.  The move constructor on [[1,2,3]]. *)
Lemma Vector_move_takes_all_witness :
  Holds (vec [1; 2; 3] 4) [1; 2; 3] ∧
  handle_ok (data_ (vec [1; 2; 3] 4)) ∧
  Vector_move (vec [1; 2; 3] 4) = (vec [1; 2; 3] 4, Vector_default).
Proof.
  assert (Holds (vec [1; 2; 3] 4) [1; 2; 3]) as Hv by (by vm_compute).
  assert (handle_ok (data_ (vec [1; 2; 3] 4))) as Hok by (cbv; lia).
  split; [exact Hv|]. split; [exact Hok|].
  exact (Vector_move_takes_all _ _ Hv Hok).
Defined.


(** X13 on a concrete input.  operator new throwing on its first call, on the
    full vector [[1,2,3]]. *)
Lemma allocation_failure_leaves_vector_witness :
  tick (World 1 [true] [] : @world nat) = (true, World 1 [] []) ∧
  Reserve id false 5 (vec [1; 2; 3] 3) (World 1 [true] []) =
    (Throw, vec [1; 2; 3] 3, World 1 [] []) ∧
  PushBack id false 9 (vec [1; 2; 3] 3) (World 1 [true] []) =
    (Throw, vec [1; 2; 3] 3, World 1 [] []) ∧
  Vector_copy (vec [1; 2; 3] 3) (World 1 [true] []) =
    (Throw, World 1 [] []).
Proof.
  assert (tick (World 1 [true] [] : @world nat) = (true, World 1 [] []))
    as Ht by reflexivity.
  destruct (allocation_failure_leaves_vector id 0 false (vec [1; 2; 3] 3)
              _ _ Ht) as (HR & _ & _ & HB & _ & HC & _).
  split; [exact Ht|]. split; [apply HR; cbv; lia|].
  split; [apply (HB 9); reflexivity|]. apply HC. cbv. lia.
Defined.


(** X10 on a concrete input.  Indices 1 and 3 of [[1,2,3]] held in a block of
    4. *)
Lemma Vector_at_spec_witness :
  Holds (vec [1; 2; 3] 4) [1; 2; 3] ∧
  Vector_at 1 (vec [1; 2; 3] 4) = Ret 1 ∧
  cells (data_ (vec [1; 2; 3] 4)) !! 1 = Some (Obj 2) ∧
  Vector_at 3 (vec [1; 2; 3] 4) = AssertFail.
Proof.
  assert (Holds (vec [1; 2; 3] 4) [1; 2; 3]) as Hv by (by vm_compute).
  assert (Vector_at 1 (vec [1; 2; 3] 4) = Ret 1 ∧
          cells (data_ (vec [1; 2; 3] 4)) !! 1 = Some (Obj 2)) as [H1 H2]
    by exact (Vector_at_spec 1 _ _ Hv).
  split; [exact Hv|]. split; [exact H1|]. split; [exact H2|].
  exact (Vector_at_spec 3 _ _ Hv).
Defined.

(** X16 on a concrete input.  [PushBack(3)] on the full vector [[1,2]], then
    [PopBack]. *)
Lemma PushBack_PopBack_witness :
  Inv (vec [1; 2] 2) [1; 2] ∧
  PushBack id false 3 (vec [1; 2] 2) no_faults =
    (Ret tt, vec_at 2 [1; 2; 3] 4, World 2 [] []) ∧
  ∃ v2, PopBack (vec_at 2 [1; 2; 3] 4) (World 2 [] []) =
          (Ret tt, v2, World 2 [] []) ∧
        Inv v2 [1; 2].
Proof.
  assert (Inv (vec [1; 2] 2) [1; 2]) as Hv by (by vm_compute).
  assert (PushBack id false 3 (vec [1; 2] 2) no_faults =
            (Ret tt, vec_at 2 [1; 2; 3] 4, World 2 [] [])) as HP
    by reflexivity.
  destruct (PushBack_PopBack id false 3 _ [1; 2] _ _ _ Hv HP)
    as (v2 & Hpop & HI & _).
  split; [exact Hv|]. split; [exact HP|]. exists v2.
  split; [exact Hpop|exact HI].
Defined.

(** X17 on a concrete input.  Three pushes into [[1]] held in a block of 4. *)
Lemma pushes_within_capacity_keep_block_witness :
  size_ (vec [1] 4) + length [2; 3; 4] ≤ Capacity (vec [1] 4) ∧
  push_all id false [2; 3; 4] (vec [1] 4) no_faults =
    (Ret tt, vec [1; 2; 3; 4] 4, no_faults) ∧
  buffer_ (data_ (vec [1; 2; 3; 4] 4)) = buffer_ (data_ (vec [1] 4)) ∧
  Capacity (vec [1; 2; 3; 4] 4) = Capacity (vec [1] 4).
Proof.
  assert (size_ (vec [1] 4) + length [2; 3; 4] ≤ Capacity (vec [1] 4))
    as Hfit by (cbv; lia).
  assert (push_all id false [2; 3; 4] (vec [1] 4) no_faults =
            (Ret tt, vec [1; 2; 3; 4] 4, no_faults)) as HP by reflexivity.
  destruct (pushes_within_capacity_keep_block id false [2; 3; 4] _ _ _ _ _
              Hfit HP) as (Hb & Hc & _).
  split; [exact Hfit|]. split; [exact HP|]. split; [exact Hb|exact Hc].
Defined.

(** X18 on a concrete input.  The two vectors at 10 and 20, swapped and
    swapped back. *)
Lemma swap_swap_witness :
  objs two_vectors !! 10 = Some (vec [1; 2; 3] 4) ∧
  objs two_vectors !! 20 = Some (vec_at 2 [7] 1) ∧
  ∃ σ', swap 10 20 two_vectors = (Ret tt, σ') ∧
        objs σ' !! 10 = Some (vec_at 2 [7] 1) ∧
        objs σ' !! 20 = Some (vec [1; 2; 3] 4) ∧
        swap 10 20 σ' = (Ret tt, two_vectors).
Proof.
  assert (objs two_vectors !! 10 = Some (vec [1; 2; 3] 4)) as Hv
    by (by vm_compute).
  assert (objs two_vectors !! 20 = Some (vec_at 2 [7] 1)) as Ho
    by (by vm_compute).
  split; [exact Hv|]. split; [exact Ho|].
  exact (swap_swap 10 20 _ _ two_vectors Hv Ho).
Defined.

(** X19 on a concrete input.  [Erase] at index 1 of [[1,2,3]], then the
    destructor. *)
Lemma Erase_then_destructor_leaks_witness :
  Inv (vec [1; 2; 3] 4) [1; 2; 3] ∧
  1 < size_ (vec [1; 2; 3] 4) ∧
  ∃ v' w' z,
    Erase id 1 (vec [1; 2; 3] 4) no_faults = (Ret 1, v', w') ∧
    cells (data_ v') !! size_ v' = Some (Obj z) ∧
    Vector_dtor v' w' = note (Leak z) w'.
Proof.
  assert (Inv (vec [1; 2; 3] 4) [1; 2; 3]) as Hv by (by vm_compute).
  assert (1 < size_ (vec [1; 2; 3] 4)) as Hp by (cbv; lia).
  split; [exact Hv|]. split; [exact Hp|].
  exact (Erase_then_destructor_leaks id _ _ 1 no_faults Hv Hp).
Defined.

